(** * A* path finding on a weighted directed graph

    Shallow embedding of [WardCS330Program3.py]: the heuristic [h] and the
    search procedure [astar], with its open and closed sets, its relaxation
    rule, the reopening of closed nodes and the selection by [(f, id)].

    Numbers.  The program computes with IEEE doubles.  Here coordinates and
    edge costs are exact integers (a fixed unit), and [math.inf] is the
    explicit value [Inf].  [math.hypot] is a parameter of the development;
    [hypot_up] below is the Euclidean norm rounded up to the unit, which is
    exact whenever the squared norm is a perfect square. *)

From stdpp Require Import gmap strings list fin_maps.
From Stdlib Require Import ZArith Lia.

#[local] Set Warnings "-clear-no-such-hyp".

Local Open Scope Z_scope.

(** ** Costs: a number or [math.inf] *)

Inductive cost : Type :=
  | Fin (c : Z)
  | Inf.

Definition cadd (a b : cost) : cost :=
  match a, b with
  | Fin x, Fin y => Fin (x + y)
  | _, _ => Inf
  end.

(** [a < b] on costs. *)
Definition cltb (a b : cost) : bool :=
  match a, b with
  | Fin x, Fin y => x <? y
  | Fin _, Inf => true
  | Inf, _ => false
  end.

(** [a >= b] on costs. *)
Definition cgeb (a b : cost) : bool :=
  match a, b with
  | Fin x, Fin y => y <=? x
  | Inf, _ => true
  | Fin _, Inf => false
  end.

(** Python compares the tuples [(f_cost[n], n)] lexicographically. *)
Definition key_ltb (a b : cost * Z) : bool :=
  cltb a.1 b.1 || (negb (cltb b.1 a.1) && (a.2 <? b.2)).

(** ** The graph store and the search state *)

Record node : Type := Node { x : Z; z : Z; name : string }.

Inductive exn : Type :=
  | KeyError (k : Z).

(** Everything [astar] can touch: the two arguments [nodes] and [edges]
    (objects shared with the caller) and its local variables. *)
Record World : Type := mkWorld {
  nodes : gmap Z node;
  edges : gmap Z (list (Z * Z));
  open_set : gset Z;
  closed_set : gset Z;
  g_cost : gmap Z cost;
  f_cost : gmap Z cost;
  prev : gmap Z Z
}.

(** Reading a [defaultdict(lambda: math.inf)]: an absent key reads as
    [math.inf].  (Python also stores that default under the key; the stored
    entry reads as [math.inf] again, so the reads are the same.) *)
Definition dd_get (m : gmap Z cost) (n : Z) : cost := default Inf (m !! n).

(** [edges.get(current, [])]. *)
Definition edges_get (w : World) (n : Z) : list (Z * Z) :=
  default [] (edges w !! n).

Definition set_open (s : gset Z) (w : World) : World :=
  mkWorld (nodes w) (edges w) s (closed_set w) (g_cost w) (f_cost w) (prev w).
Definition set_closed (s : gset Z) (w : World) : World :=
  mkWorld (nodes w) (edges w) (open_set w) s (g_cost w) (f_cost w) (prev w).
Definition set_g (m : gmap Z cost) (w : World) : World :=
  mkWorld (nodes w) (edges w) (open_set w) (closed_set w) m (f_cost w) (prev w).
Definition set_f (m : gmap Z cost) (w : World) : World :=
  mkWorld (nodes w) (edges w) (open_set w) (closed_set w) (g_cost w) m (prev w).
Definition set_prev (m : gmap Z Z) (w : World) : World :=
  mkWorld (nodes w) (edges w) (open_set w) (closed_set w) (g_cost w) (f_cost w) m.

(** A statement either completes with a new state or raises; the state at
    the raise is kept, so that the caller's objects can be inspected. *)
Inductive result : Type :=
  | Ok (w : World)
  | Exc (e : exn) (w : World).

(** What a call of [astar] does: it returns a pair, raises, or is still
    running when the fuel of the model is used up. *)
Inductive outcome : Type :=
  | Return (path : list Z) (total : cost)
  | Raise (e : exn)
  | OutOfFuel.

(** The Euclidean norm of an integer vector, rounded up. *)
Definition hypot_up (dx dz : Z) : Z :=
  let s := dx * dx + dz * dz in
  let r := Z.sqrt s in
  if r * r =? s then r else r + 1.

(** [min(l, key=...)] keeps the first element with the least key. *)
Definition min_by (key : Z → cost * Z) (l : list Z) : option Z :=
  foldl (λ acc n,
           match acc with
           | None => Some n
           | Some m => if key_ltb (key n) (key m) then Some n else Some m
           end) None l.

(** The path rebuilding loop, [while path[0] in prev: path.appendleft(...)],
    on the deque [hd :: tl]. *)
Fixpoint rebuild (fuel : nat) (pv : gmap Z Z) (hd : Z) (tl : list Z)
  : option (list Z) :=
  match fuel with
  | O => None
  | S fuel' =>
      match pv !! hd with
      | Some p => rebuild fuel' pv p (hd :: tl)
      | None => Some (hd :: tl)
      end
  end.

Section AStar.

(** [math.hypot]. *)
Variable hypot : Z → Z → Z.

(** [h(nodes, a, b)]: [nodes[b]] is read first, then [nodes[a]]. *)
Definition h (nd : gmap Z node) (a b : Z) : exn + Z :=
  match nd !! b with
  | None => inl (KeyError b)
  | Some nb =>
      match nd !! a with
      | None => inl (KeyError a)
      | Some na => inr (hypot (x nb - x na) (z nb - z na))
      end
  end.

Variable goal : Z.

(** Lines 119-121: record the best route found so far to [to_id]. *)
Definition record_route (current to_id : Z) (tentative_g : cost) (w : World)
  : result :=
  let w1 := set_prev (<[to_id := current]> (prev w)) w in
  let w2 := set_g (<[to_id := tentative_g]> (g_cost w1)) w1 in
  match h (nodes w2) to_id goal with
  | inl e => Exc e w2
  | inr hv => Ok (set_f (<[to_id := cadd tentative_g (Fin hv)]> (f_cost w2)) w2)
  end.

(** The body of [for to_id, cost in edges.get(current, [])] (lines 104-121). *)
Definition relax (current : Z) (w : World) (e : Z * Z) : result :=
  let tentative_g := cadd (dd_get (g_cost w) current) (Fin e.2) in
  let w1 :=
    if bool_decide (e.1 ∈ closed_set w)
       && cltb tentative_g (dd_get (g_cost w) e.1)
    then set_open ({[e.1]} ∪ open_set w)
           (set_closed (closed_set w ∖ {[e.1]}) w)
    else w in
  if bool_decide (e.1 ∉ open_set w1) && bool_decide (e.1 ∉ closed_set w1)
  then record_route current e.1 tentative_g
         (set_open ({[e.1]} ∪ open_set w1) w1)
  else if cgeb tentative_g (dd_get (g_cost w1) e.1)
  then Ok w1
  else record_route current e.1 tentative_g w1.

(** The [for] loop over the outgoing edges of [current]. *)
Fixpoint relax_all (current : Z) (w : World) (es : list (Z * Z)) : result :=
  match es with
  | [] => Ok w
  | e :: es' =>
      match relax current w e with
      | Exc ex w' => Exc ex w'
      | Ok w' => relax_all current w' es'
      end
  end.

(** [min(open_set, key=lambda n: (f_cost[n], n))]; [None] when Open is empty. *)
Definition select (w : World) : option Z :=
  min_by (λ n, (dd_get (f_cost w) n, n)) (elements (open_set w)).

(** Lines 99-121: move [current] from Open to Closed and relax its edges. *)
Definition expand (current : Z) (w : World) : result :=
  let w1 := set_closed ({[current]} ∪ closed_set w)
              (set_open (open_set w ∖ {[current]}) w) in
  relax_all current w1 (edges_get w1 current).

(** The [while open_set] loop (lines 88-123). *)
Fixpoint search (fuel : nat) (w : World) : outcome * World :=
  match fuel with
  | O => (OutOfFuel, w)
  | S fuel' =>
      match select w with
      | None => (Return [] Inf, w)
      | Some current =>
          if bool_decide (current = goal) then
            match rebuild fuel' (prev w) goal [] with
            | Some path => (Return path (dd_get (g_cost w) goal), w)
            | None => (OutOfFuel, w)
            end
          else
            match expand current w with
            | Exc e w' => (Raise e, w')
            | Ok w' => search fuel' w'
            end
      end
  end.

(** Lines 78-86. *)
Definition init (start : Z) (w : World) : result :=
  let w1 := set_closed ∅ (set_open {[start]} w) in
  let w2 := set_prev ∅ (set_f ∅ (set_g ∅ w1)) in
  let w3 := set_g (<[start := Fin 0]> (g_cost w2)) w2 in
  match h (nodes w3) start goal with
  | inl e => Exc e w3
  | inr hv => Ok (set_f (<[start := Fin hv]> (f_cost w3)) w3)
  end.

(** The body of [astar], run on the state [w] of the caller. *)
Definition astar_run (fuel : nat) (w : World) (start : Z) : outcome * World :=
  match init start w with
  | Exc e w' => (Raise e, w')
  | Ok w0 => search fuel w0
  end.

End AStar.

(** The state at a call: the caller's graph, and no local variable yet. *)
Definition enter (nd : gmap Z node) (ed : gmap Z (list (Z * Z))) : World :=
  mkWorld nd ed ∅ ∅ ∅ ∅ ∅.

(** [astar(nodes, edges, start, goal)]. *)
Definition astar (hypot : Z → Z → Z) (fuel : nat)
    (nd : gmap Z node) (ed : gmap Z (list (Z * Z))) (start goal : Z) : outcome :=
  (astar_run hypot goal fuel (enter nd ed) start).1.

(** The state a statement ends in, whether it completes or raises. *)
Definition world_of (r : result) : World :=
  match r with Ok w => w | Exc _ w => w end.

(** The local variables of [astar] after lines 78-86. *)
Definition search_start (hypot : Z → Z → Z) (nd : gmap Z node)
    (ed : gmap Z (list (Z * Z))) (start : Z) : World :=
  mkWorld nd ed {[start]} ∅ {[start := Fin 0]} {[start := Fin (hypot 0 0)]} ∅.

(** [w'] holds the same graph store as [w]. *)
Definition same_graph (w w' : World) : Prop :=
  nodes w' = nodes w ∧ edges w' = edges w.

(** ** Graphs, walks and recomputed path costs *)

(** Every edge cost is nonnegative. *)
Definition nonneg_costs (ed : gmap Z (list (Z * Z))) : Prop :=
  map_Forall (λ _ es, Forall (λ e : Z * Z, 0 ≤ e.2) es) ed.

(** Every edge leads to a node of the graph. *)
Definition targets_known (nd : gmap Z node) (ed : gmap Z (list (Z * Z))) : Prop :=
  map_Forall (λ _ es, Forall (λ e : Z * Z, is_Some (nd !! e.1)) es) ed.



(** [walk ed a b d]: a directed walk from [a] to [b] of total cost [d]. *)
Inductive walk (ed : gmap Z (list (Z * Z))) : Z → Z → Z → Prop :=
  | walk_nil a : walk ed a a 0
  | walk_step a b c k d :
      (b, k) ∈ default [] (ed !! a) → walk ed b c d → walk ed a c (k + d).

(** The costs of the parallel edges from [a] to [b], and the cheapest. *)
Definition edge_costs (ed : gmap Z (list (Z * Z))) (a b : Z) : list Z :=
  (filter (λ e : Z * Z, e.1 = b) (default [] (ed !! a))).*2.

Definition edge_min (ed : gmap Z (list (Z * Z))) (a b : Z) : option Z :=
  match edge_costs ed a b with
  | [] => None
  | c :: cs => Some (foldr Z.min c cs)
  end.

(** The cost of a path given by its nodes, recomputed from the edge lists. *)
Fixpoint path_cost (ed : gmap Z (list (Z * Z))) (p : list Z) : option Z :=
  match p with
  | a :: (b :: _) as tl =>
      match edge_min ed a b, path_cost ed tl with
      | Some c, Some r => Some (c + r)
      | _, _ => None
      end
  | _ => Some 0
  end.

(** Every two consecutive nodes of [p] are joined by an edge. *)
Fixpoint linked (ed : gmap Z (list (Z * Z))) (p : list Z) : Prop :=
  match p with
  | a :: (b :: _) as tl => (∃ k, (b, k) ∈ default [] (ed !! a)) ∧ linked ed tl
  | _ => True
  end.

(** Lexicographic comparison of two node sequences. *)
Fixpoint lex_ltb (p q : list Z) : bool :=
  match p, q with
  | [], _ :: _ => true
  | a :: p', b :: q' => (a <? b) || ((a =? b) && lex_ltb p' q')
  | _, _ => false
  end.

(** ** Notions used in the proofs *)

Definition klt (a b : cost * Z) : Prop := key_ltb a b = true.

Definition key (w : World) (n : Z) : cost * Z := (dd_get (f_cost w) n, n).

(** The effect of an improving relaxation of the edge [u -> v]. *)
Definition improve (u v : Z) (t hv : Z) (w : World) : World :=
  mkWorld (nodes w) (edges w) ({[v]} ∪ open_set w) (closed_set w ∖ {[v]})
    (<[v := Fin t]> (g_cost w)) (<[v := Fin (t + hv)]> (f_cost w))
    (<[v := u]> (prev w)).

(** [up pv n l]: following [pv] from [n] visits [l] (nearest first) and
    stops at a node without predecessor. *)
Inductive up (pv : gmap Z Z) : Z → list Z → Prop :=
  | up_root n : pv !! n = None → up pv n []
  | up_step n p l : pv !! n = Some p → up pv p l → up pv n (p :: l).

(** The first node of [l] whose key is above [k]. *)
Fixpoint first_above (w : World) (k : cost * Z) (l : list Z) : option Z :=
  match l with
  | [] => None
  | a :: l' => if key_ltb k (key w a) then Some a else first_above w k l'
  end.

(** Cut [l] after the first [v] and continue with [tl]. *)
Fixpoint splice (v : Z) (tl l : list Z) : list Z :=
  match l with
  | [] => []
  | a :: l' => if decide (a = v) then v :: tl else a :: splice v tl l'
  end.

Definition cval (c : cost) : Z :=
  match c with Fin v => v | Inf => 0 end.

Definition gsum (m : gmap Z cost) : Z :=
  map_fold (λ _ c acc, acc + cval c) 0 m.

(** The termination measure of the main loop: nodes not yet seen, the sum
    of the recorded g-costs, and the size of Open. *)
Definition unseen (w : World) : nat := size (dom (nodes w) ∖ dom (g_cost w)).
Definition measure (w : World) : nat * nat * nat :=
  (unseen w, Z.to_nat (gsum (g_cost w)), size (open_set w)).

Definition lt3 (a b : nat * nat * nat) : Prop :=
  (a.1.1 < b.1.1)%nat ∨
  (a.1.1 = b.1.1 ∧ (a.1.2 < b.1.2)%nat) ∨
  (a.1.1 = b.1.1 ∧ a.1.2 = b.1.2 ∧ (a.2 < b.2)%nat).

(** The invariant of the search.  [u] is the node being expanded and
    [pend] the edges of [u] still to relax ([pend = []] between two
    iterations of the main loop). *)
Record inv (hypot : Z → Z → Z) (goal start u : Z) (pend : list (Z * Z))
    (w : World) : Prop := mkInv {
  inv_disj : open_set w ## closed_set w;
  inv_dom : ∀ n, n ∈ open_set w ∪ closed_set w ↔ is_Some (g_cost w !! n);
  inv_vals : ∀ n c, g_cost w !! n = Some c →
    ∃ v hv, c = Fin v ∧ 0 ≤ v ∧ h hypot (nodes w) n goal = inr hv ∧
            f_cost w !! n = Some (Fin (v + hv));
  inv_start : g_cost w !! start = Some (Fin 0) ∧ prev w !! start = None;
  inv_prev : ∀ n p, prev w !! n = Some p →
    ∃ c gp gn, (n, c) ∈ edges_get w p ∧ g_cost w !! p = Some (Fin gp) ∧
               g_cost w !! n = Some (Fin gn) ∧ gp + c ≤ gn;
  inv_has_prev : ∀ n, is_Some (g_cost w !! n) → n ≠ start → is_Some (prev w !! n);
  inv_chain : ∀ n, is_Some (g_cost w !! n) → ∃ l, up (prev w) n l;
  inv_nonneg : nonneg_costs (edges w);
  inv_relaxed : ∀ p v c gp,
    p ∈ closed_set w → (v, c) ∈ edges_get w p → g_cost w !! p = Some (Fin gp) →
    (p = u ∧ (v, c) ∈ pend) ∨
    ∃ gv, g_cost w !! v = Some (Fin gv) ∧ gv ≤ gp + c;
  inv_goal : goal ∉ closed_set w
}.

(** The state while the edges [pend] of the closed node [u], of g-cost
    [gu], are still to relax. *)
Definition mid (hypot : Z → Z → Z) (goal start u : Z) (gu : Z)
    (pend : list (Z * Z)) (w : World) : Prop :=
  inv hypot goal start u pend w ∧ u ∈ closed_set w ∧
  g_cost w !! u = Some (Fin gu) ∧ ∀ e, e ∈ pend → e ∈ edges_get w u.

(** The state after [open_set.remove(current); closed_set.add(current)]. *)
Definition move (u : Z) (w : World) : World :=
  set_closed ({[u]} ∪ closed_set w) (set_open (open_set w ∖ {[u]}) w).

(** An open node has a larger key than each of its open ancestors. *)
Definition theta (w : World) : Prop :=
  ∀ n l a, n ∈ open_set w → up (prev w) n l → a ∈ l → a ∈ open_set w →
    klt (key w a) (key w n).

(** Above the key of an open node, its ancestors and those of [u] (with [u]
    itself) show the same first node. *)
Definition anchored (u : Z) (w : World) : Prop :=
  ∀ n l lu k, n ∈ open_set w → up (prev w) n l → up (prev w) u lu →
    ¬ klt k (key w n) → first_above w k l = first_above w k (u :: lu).

Definition anchored_head (w : World) : Prop :=
  ∀ n m ln lm k, n ∈ open_set w → m ∈ open_set w →
    up (prev w) n ln → up (prev w) m lm →
    ¬ klt k (key w n) → ¬ klt k (key w m) →
    first_above w k ln = first_above w k lm.

Definition pivot_closed (u : Z) (w : World) : Prop :=
  u ∈ closed_set w ∧ ∀ lu a, up (prev w) u lu → a ∈ lu → a ∈ closed_set w.

(** What the cost agreement needs besides [inv]: while [u] is expanded,
    and between two iterations. *)
Definition mid2 (u : Z) (w : World) : Prop :=
  theta w ∧ anchored u w ∧ pivot_closed u w.

Definition head2 (w : World) : Prop := theta w ∧ anchored_head w.

(** A relaxation that improves lowers the first two components. *)
Definition lt2 (w' w : World) : Prop :=
  (unseen w' < unseen w)%nat ∨
  (unseen w' = unseen w ∧
   (Z.to_nat (gsum (g_cost w')) < Z.to_nat (gsum (g_cost w)))%nat).

(** ** Example graphs *)

Definition ex_nodes : gmap Z node :=
  list_to_map [(1, Node 0 0 ""); (2, Node 1 0 ""); (3, Node 2 0 "")].
Definition ex_edges : gmap Z (list (Z * Z)) :=
  list_to_map [(1, [(2, 1); (3, 3)]); (2, [(3, 1)])].

(** A node reached first by a long edge and later by a shorter route
    through a node expanded after it. *)
Definition reopen_nodes : gmap Z node :=
  list_to_map [(1, Node 10 0 "S"); (2, Node 0 0 "P"); (3, Node 9 0 "M");
               (4, Node 0 0 "G")].
Definition reopen_edges : gmap Z (list (Z * Z)) :=
  list_to_map [(1, [(2, 10); (3, 1)]); (3, [(2, 1)]); (2, [(4, 1)])].

(** Two optimal routes of cost 10: through node 2 and through node 3. *)
Definition tie_nodes : gmap Z node :=
  list_to_map [(1, Node 0 0 ""); (2, Node 0 3 ""); (3, Node 4 3 "");
               (4, Node 4 0 "")].
Definition tie_edges : gmap Z (list (Z * Z)) :=
  list_to_map [(1, [(2, 5); (3, 5)]); (2, [(4, 5)]); (3, [(4, 5)])].

(** A self-loop of negative cost on the start node. *)
Definition neg_nodes : gmap Z node :=
  list_to_map [(1, Node 0 0 ""); (2, Node 5 0 "")].
Definition neg_edges : gmap Z (list (Z * Z)) :=
  list_to_map [(1, [(1, -1); (2, 1)])].

(** Node 5 has no edge, in or out. *)
Definition island_nodes : gmap Z node :=
  list_to_map [(1, Node 0 0 ""); (2, Node 1 0 ""); (5, Node 7 0 "")].
Definition island_edges : gmap Z (list (Z * Z)) :=
  list_to_map [(1, [(2, 1)]); (2, [(1, 1)])].


(** The run on [tie_nodes], [tie_edges] from 1 to 4 after the expansion of
    1 and of 3: nodes 2 and 4 are open with the same f-cost. *)
Definition tie_w2 : World :=
  world_of (expand hypot_up 4 3
    (world_of (expand hypot_up 4 1
      (world_of (init hypot_up 4 1 (enter tie_nodes tie_edges)))))).



Example spec_scenario :
  astar hypot_up 10 ex_nodes ex_edges 1 3 = Return [1; 2; 3] (Fin 2).
Proof. vm_compute. reflexivity. Qed.

Example reopen_scenario :
  astar hypot_up 10 reopen_nodes reopen_edges 1 4 = Return [1; 3; 2; 4] (Fin 3).
Proof. vm_compute. reflexivity. Qed.

Example tie_scenario :
  astar hypot_up 10 tie_nodes tie_edges 1 4 = Return [1; 3; 4] (Fin 10).
Proof. vm_compute. reflexivity. Qed.

Example island_scenario :
  astar hypot_up 10 island_nodes island_edges 1 5 = Return [] Inf.
Proof. vm_compute. reflexivity. Qed.

Example neg_scenario :
  astar hypot_up 10 neg_nodes neg_edges 1 2 = OutOfFuel.
Proof. vm_compute. reflexivity. Qed.

(** * Proofs *)

(** ** The order on keys *)

Lemma klt_spec a i b j :
  klt (a, i) (b, j) ↔
  match a, b with
  | Fin v, Fin v' => v < v' ∨ (v = v' ∧ i < j)
  | Fin _, Inf => True
  | Inf, Fin _ => False
  | Inf, Inf => i < j
  end.
Proof.
  unfold klt, key_ltb, cltb; cbn [fst snd].
  destruct a as [v|], b as [v'|]; cbn;
    rewrite ?orb_true_iff, ?andb_true_iff, ?negb_true_iff, ?Z.ltb_lt, ?Z.ltb_ge;
    try lia; naive_solver.
Qed.

Ltac key_solve :=
  repeat match goal with
         | p : (cost * Z)%type |- _ => destruct p as [[?|] ?]
         end;
  rewrite ?klt_spec in *; cbn in *; try lia; try naive_solver lia.

Lemma klt_irrefl k : ¬ klt k k.
Proof. key_solve. Qed.

Lemma klt_trans a b c : klt a b → klt b c → klt a c.
Proof. key_solve. Qed.

Lemma klt_total a b : a = b ∨ klt a b ∨ klt b a.
Proof.
  destruct a as [[v|] i], b as [[v'|] j]; rewrite !klt_spec.
  - destruct (Z.lt_trichotomy v v') as [?|[->|?]]; [lia| |lia].
    destruct (Z.lt_trichotomy i j) as [?|[->|?]]; auto; lia.
  - auto.
  - auto.
  - destruct (Z.lt_trichotomy i j) as [?|[->|?]]; auto.
Qed.

Lemma klt_le_trans a b c : klt a b → ¬ klt c b → klt a c.
Proof. key_solve. Qed.

Lemma le_klt_trans a b c : ¬ klt b a → klt b c → klt a c.
Proof. key_solve. Qed.

Lemma kle_trans a b c : ¬ klt b a → ¬ klt c b → ¬ klt c a.
Proof. key_solve. Qed.

Lemma klt_dec a b : klt a b ∨ ¬ klt a b.
Proof. unfold klt. destruct (key_ltb a b); auto. Qed.

Lemma cgeb_cltb a b : cgeb a b = negb (cltb a b).
Proof.
  destruct a, b; cbn; auto.
  destruct (Z.ltb_spec c c0), (Z.leb_spec c0 c); auto; lia.
Qed.

(** ** [min] with a key *)

Lemma min_by_foldl (kf : Z → cost * Z) (l : list Z) (a m : Z) :
  foldl (λ acc n,
           match acc with
           | None => Some n
           | Some m => if key_ltb (kf n) (kf m) then Some n else Some m
           end) (Some a) l = Some m →
  m ∈ a :: l ∧ ¬ klt (kf a) (kf m) ∧ ∀ n, n ∈ l → ¬ klt (kf n) (kf m).
Proof.
  revert a. induction l as [|b l IH]; intros a; cbn.
  - intros [= <-]. split; [left|]. split; [apply klt_irrefl|].
    intros n Hn. inversion Hn.
  - destruct (key_ltb (kf b) (kf a)) eqn:E; intros H; apply IH in H as (Hin & Hle & Hall).
    + split; [right; exact Hin|]. split.
      * intros Hlt. apply Hle. eapply klt_trans; [exact E|exact Hlt].
      * intros n Hn. apply elem_of_cons in Hn as [->|Hn]; auto.
    + split.
      * apply elem_of_cons in Hin as [->|Hin]; [left|right; right; exact Hin].
      * split; [exact Hle|]. intros n Hn.
        apply elem_of_cons in Hn as [->|Hn]; auto.
        intros Hlt. assert (klt (kf b) (kf a)) as Hba.
        { eapply klt_le_trans; [exact Hlt|exact Hle]. }
        unfold klt in Hba. congruence.
Qed.

Lemma min_by_Some (kf : Z → cost * Z) (l : list Z) (m : Z) :
  min_by kf l = Some m → m ∈ l ∧ ∀ n, n ∈ l → ¬ klt (kf n) (kf m).
Proof.
  destruct l as [|a l]; [discriminate|]. unfold min_by; cbn.
  intros H. apply min_by_foldl in H as (Hin & Hle & Hall).
  split; [exact Hin|]. intros n Hn.
  apply elem_of_cons in Hn as [->|Hn]; auto.
Qed.

Lemma min_by_None (kf : Z → cost * Z) (l : list Z) :
  min_by kf l = None → l = [].
Proof.
  destruct l as [|a l]; [reflexivity|]. unfold min_by; cbn.
  intros H. exfalso. revert a H.
  induction l as [|b l IH]; intros a; cbn; [discriminate|].
  destruct (key_ltb (kf b) (kf a)); apply IH.
Qed.

Lemma min_by_is_Some (kf : Z → cost * Z) (l : list Z) : l ≠ [] → is_Some (min_by kf l).
Proof.
  intros Hl. destruct (min_by kf l) eqn:E; [eauto|].
  apply min_by_None in E. contradiction.
Qed.

(** The least element is unique when the key determines the element. *)
Lemma min_by_unique (kf : Z → cost * Z) (l : list Z) (m : Z) :
  (∀ a b, kf a = kf b → a = b) →
  m ∈ l → (∀ n, n ∈ l → ¬ klt (kf n) (kf m)) → min_by kf l = Some m.
Proof.
  intros Hinj Hin Hmin.
  assert (l ≠ []) as Hne by (intros ->; inversion Hin).
  destruct (min_by_is_Some kf l Hne) as [m' Hm'].
  rewrite Hm'. f_equal.
  apply min_by_Some in Hm' as [Hin' Hmin'].
  apply Hinj. destruct (klt_total (kf m') (kf m)) as [E|[E|E]].
  - exact E.
  - exfalso. exact (Hmin m' Hin' E).
  - exfalso. exact (Hmin' m Hin E).
Qed.

(** ** Single steps *)

Section Steps.

Context (hypot : Z → Z → Z) (goal : Z).

Lemma world_eq (w : World) nd ed o c g f p :
  nodes w = nd → edges w = ed → open_set w = o → closed_set w = c →
  g_cost w = g → f_cost w = f → prev w = p → w = mkWorld nd ed o c g f p.
Proof. destruct w; cbn; intros; subst; reflexivity. Qed.

Lemma h_inr nd a b hv :
  h hypot nd a b = inr hv →
  ∃ na nb, nd !! a = Some na ∧ nd !! b = Some nb ∧
           hv = hypot (x nb - x na) (z nb - z na).
Proof.
  unfold h. destruct (nd !! b) as [nb|]; [|discriminate].
  destruct (nd !! a) as [na|]; [|discriminate].
  intros [= <-]. eauto.
Qed.

Lemma h_inl nd a b e :
  h hypot nd a b = inl e →
  ∃ k, e = KeyError k ∧ nd !! k = None ∧ (k = a ∨ k = b).
Proof.
  unfold h. destruct (nd !! b) as [nb|] eqn:Eb.
  - destruct (nd !! a) as [na|] eqn:Ea; [discriminate|].
    intros [= <-]. eauto.
  - intros [= <-]. eauto.
Qed.

Lemma h_known nd a b :
  is_Some (nd !! a) → is_Some (nd !! b) → ∃ hv, h hypot nd a b = inr hv.
Proof. intros [na Ha] [nb Hb]. unfold h. rewrite Ha, Hb. eauto. Qed.

(** What one relaxation does, in a state where Open and Closed are disjoint
    and hold the nodes with a recorded g-cost. *)
Lemma relax_spec (w : World) (u v c gu : Z) :
  open_set w ## closed_set w →
  (∀ n, n ∈ open_set w ∪ closed_set w ↔ is_Some (g_cost w !! n)) →
  g_cost w !! u = Some (Fin gu) →
  (cltb (Fin (gu + c)) (dd_get (g_cost w) v) = false ∧
   relax hypot goal u w (v, c) = Ok w) ∨
  (cltb (Fin (gu + c)) (dd_get (g_cost w) v) = true ∧
   ∃ hv, h hypot (nodes w) v goal = inr hv ∧
         relax hypot goal u w (v, c) = Ok (improve u v (gu + c) hv w)) ∨
  (cltb (Fin (gu + c)) (dd_get (g_cost w) v) = true ∧
   ∃ e w', h hypot (nodes w) v goal = inl e ∧
           relax hypot goal u w (v, c) = Exc e w' ∧
           nodes w' = nodes w ∧ edges w' = edges w).
Proof.
  intros Hdisj Hdom Hu.
  assert (dd_get (g_cost w) u = Fin gu) as Hgu by (unfold dd_get; rewrite Hu; done).
  unfold relax; cbn [fst snd]. rewrite Hgu; cbn [cadd].
  destruct (cltb (Fin (gu + c)) (dd_get (g_cost w) v)) eqn:Hlt.
  - (* improvement *)
    right.
    assert (∀ w1 : World,
      nodes w1 = nodes w → edges w1 = edges w →
      open_set w1 = {[v]} ∪ open_set w → closed_set w1 = closed_set w ∖ {[v]} →
      g_cost w1 = g_cost w → f_cost w1 = f_cost w → prev w1 = prev w →
      (∃ hv, h hypot (nodes w) v goal = inr hv ∧
         record_route hypot goal u v (Fin (gu + c)) w1
         = Ok (improve u v (gu + c) hv w)) ∨
      (∃ e w', h hypot (nodes w) v goal = inl e ∧
         record_route hypot goal u v (Fin (gu + c)) w1 = Exc e w' ∧
         nodes w' = nodes w ∧ edges w' = edges w)) as Hrec.
    { intros w1 E1 E2 E3 E4 E5 E6 E7. unfold record_route; cbn.
      rewrite E1. destruct (h hypot (nodes w) v goal) as [e|hv] eqn:Hh.
      - right. eexists _, _. split; [reflexivity|]. split; [reflexivity|].
        cbn. auto.
      - left. exists hv. split; [reflexivity|]. f_equal.
        unfold improve. apply world_eq; cbn; congruence. }
    destruct (decide (v ∈ closed_set w)) as [Hc|Hc].
    + rewrite (bool_decide_eq_true_2 _ Hc); cbn [andb].
      cbn [open_set closed_set set_open set_closed].
      rewrite bool_decide_eq_false_2 by set_solver. cbn [andb].
      cbn [g_cost set_open set_closed]. 
      rewrite cgeb_cltb, Hlt; cbn [negb].
      destruct (Hrec (set_open ({[v]} ∪ open_set w)
                       (set_closed (closed_set w ∖ {[v]}) w)))
        as [H|H]; cbn; auto.
    + rewrite (bool_decide_eq_false_2 _ Hc); cbn [andb].
      destruct (decide (v ∈ open_set w)) as [Ho|Ho].
      * rewrite bool_decide_eq_false_2 by set_solver. cbn [andb].
        rewrite cgeb_cltb, Hlt; cbn [negb].
        destruct (Hrec w) as [H|H]; cbn; auto; set_solver.
      * rewrite (bool_decide_eq_true_2 _ Ho), (bool_decide_eq_true_2 _ Hc).
        cbn [andb].
        destruct (Hrec (set_open ({[v]} ∪ open_set w) w)) as [H|H];
          cbn; auto; set_solver.
  - left. split; [reflexivity|].
    assert (is_Some (g_cost w !! v)) as Hv.
    { unfold dd_get in Hlt. destruct (g_cost w !! v); [eauto|]. discriminate. }
    apply Hdom in Hv.
    destruct (decide (v ∈ closed_set w)) as [Hc|Hc].
    + rewrite (bool_decide_eq_true_2 _ Hc); cbn [andb].
      rewrite (bool_decide_eq_false_2 (v ∉ closed_set w)) by tauto.
      rewrite andb_false_r. rewrite cgeb_cltb, Hlt. reflexivity.
    + rewrite (bool_decide_eq_false_2 _ Hc); cbn [andb].
      rewrite (bool_decide_eq_false_2 (v ∉ open_set w)) by set_solver.
      cbn [andb]. rewrite cgeb_cltb, Hlt. reflexivity.
Qed.

End Steps.

(** ** The graph store is only read *)

Section Frame.

Context (hypot : Z → Z → Z) (goal : Z).

Lemma record_route_frame u v t w :
  same_graph w (world_of (record_route hypot goal u v t w)).
Proof.
  unfold record_route, same_graph. cbn.
  destruct (h hypot (nodes w) v goal); cbn; auto.
Qed.

Lemma relax_frame u w e : same_graph w (world_of (relax hypot goal u w e)).
Proof.
  unfold relax.
  repeat match goal with
         | |- context [if ?b then _ else _] => destruct b
         end;
    try (split; reflexivity);
    match goal with
    | |- same_graph _ (world_of (record_route _ _ _ _ _ ?w1)) =>
        destruct (record_route_frame u e.1
                    (cadd (dd_get (g_cost w) u) (Fin e.2)) w1) as [H1 H2];
        split; [rewrite H1|rewrite H2]; reflexivity
    end.
Qed.

Lemma relax_all_frame u es : ∀ w,
  same_graph w (world_of (relax_all hypot goal u w es)).
Proof.
  induction es as [|e es IH]; intros w; cbn; [split; reflexivity|].
  pose proof (relax_frame u w e) as [H1 H2].
  destruct (relax hypot goal u w e) as [w'|ex w']; cbn in *.
  - destruct (IH w') as [H3 H4]. split; congruence.
  - split; assumption.
Qed.

Lemma expand_frame u w : same_graph w (world_of (expand hypot goal u w)).
Proof.
  unfold expand.
  match goal with |- same_graph _ (world_of (relax_all _ _ _ ?w1 ?es)) =>
    destruct (relax_all_frame u es w1) as [H1 H2] end.
  split; [rewrite H1|rewrite H2]; reflexivity.
Qed.

Lemma search_frame fuel : ∀ w, same_graph w (search hypot goal fuel w).2.
Proof.
  induction fuel as [|fuel IH]; intros w; cbn; [split; reflexivity|].
  destruct (select w) as [u|]; [|split; reflexivity].
  destruct (bool_decide (u = goal)).
  - destruct (rebuild fuel (prev w) goal []); split; reflexivity.
  - pose proof (expand_frame u w) as [H1 H2].
    destruct (expand hypot goal u w) as [w'|ex w']; cbn in *.
    + destruct (IH w') as [H3 H4]. split; congruence.
    + split; assumption.
Qed.

Lemma init_frame start w : same_graph w (world_of (init hypot goal start w)).
Proof.
  unfold init. cbn. destruct (h hypot (nodes w) start goal); split; reflexivity.
Qed.

Lemma astar_run_frame fuel w start :
  same_graph w (astar_run hypot goal fuel w start).2.
Proof.
  unfold astar_run.
  pose proof (init_frame start w) as [H1 H2].
  destruct (init hypot goal start w) as [w0|ex w0]; cbn in *.
  - destruct (search_frame fuel w0) as [H3 H4]. split; congruence.
  - split; assumption.
Qed.

End Frame.

(** ** The first iteration, and unknown identifiers *)

Section Entry.

Context (hypot : Z → Z → Z).

Lemma init_known nd ed start goal na ng :
  nd !! start = Some na → nd !! goal = Some ng →
  init hypot goal start (enter nd ed) =
  Ok (mkWorld nd ed {[start]} ∅ {[start := Fin 0]}
        {[start := Fin (hypot (x ng - x na) (z ng - z na))]} ∅).
Proof.
  intros Hs Hg. unfold init, h; cbn. rewrite Hg, Hs. reflexivity.
Qed.

Lemma init_unknown nd ed start goal :
  nd !! start = None ∨ nd !! goal = None →
  ∃ k w', init hypot goal start (enter nd ed) = Exc (KeyError k) w' ∧
          nd !! k = None ∧ (k = start ∨ k = goal).
Proof.
  intros Hun. unfold init, h; cbn.
  destruct (nd !! goal) as [ng|] eqn:Hg.
  - destruct (nd !! start) as [na|] eqn:Hs.
    + destruct Hun; discriminate.
    + eexists start, _. eauto.
  - eexists goal, _. eauto.
Qed.

Lemma select_singleton (w : World) n :
  open_set w = {[n]} → select w = Some n.
Proof.
  intros Ho. unfold select. rewrite Ho, elements_singleton. reflexivity.
Qed.

End Entry.

(** ** Predecessor chains *)

Lemma up_func (pv : gmap Z Z) n l l' : up pv n l → up pv n l' → l = l'.
Proof.
  intros H. revert l'. induction H as [n Hn|n p l Hn Hp IH]; intros l' H'.
  - inversion H'; subst; [reflexivity|congruence].
  - inversion H' as [|n' p' l'' Hn' Hp']; subst; [congruence|].
    assert (p' = p) by congruence. subst. f_equal. apply IH. exact Hp'.
Qed.

Lemma up_suffix (pv : gmap Z Z) l1 : ∀ n a l2,
  up pv n (l1 ++ a :: l2) → up pv a l2.
Proof.
  induction l1 as [|b l1 IH]; intros n a l2 H; cbn in H.
  - inversion H; subst. assumption.
  - inversion H; subst. eapply IH. eassumption.
Qed.

Lemma up_insert_notin (pv : gmap Z Z) u v n l :
  up pv n l → v ∉ n :: l → up (<[v:=u]> pv) n l.
Proof.
  induction 1 as [n Hn|n p l Hn Hp IH]; intros Hv.
  - apply up_root. rewrite lookup_insert_ne; [exact Hn|].
    intros ->. apply Hv. left.
  - apply up_step.
    + rewrite lookup_insert_ne; [exact Hn|]. intros ->. apply Hv. left.
    + apply IH. intros Hin. apply Hv. right. exact Hin.
Qed.

Lemma up_improve_self (pv : gmap Z Z) u v lu :
  up pv u lu → v ∉ u :: lu → up (<[v:=u]> pv) v (u :: lu).
Proof.
  intros Hu Hv. apply up_step; [apply lookup_insert_eq|].
  apply up_insert_notin; assumption.
Qed.

Lemma up_improve (pv : gmap Z Z) u v lu n l :
  up pv u lu → v ∉ u :: lu → up pv n l → n ≠ v →
  up (<[v:=u]> pv) n (splice v (u :: lu) l).
Proof.
  intros Hu Hv H. induction H as [n Hn|n p l Hn Hp IH]; intros Hne; cbn.
  - apply up_root. rewrite lookup_insert_ne by done. exact Hn.
  - destruct (decide (p = v)) as [->|Hpv].
    + apply up_step; [rewrite lookup_insert_ne by done; exact Hn|].
      apply up_improve_self; assumption.
    + apply up_step; [rewrite lookup_insert_ne by done; exact Hn|].
      apply IH. exact Hpv.
Qed.

Lemma splice_notin v tl (l : list Z) : v ∉ l → splice v tl l = l.
Proof.
  induction l as [|a l IH]; cbn; [reflexivity|]. intros Hv.
  destruct (decide (a = v)) as [->|Hne].
  - exfalso. apply Hv. left.
  - f_equal. apply IH. intros Hin. apply Hv. right. exact Hin.
Qed.

Lemma splice_in v tl (l1 l2 : list Z) :
  v ∉ l1 → splice v tl (l1 ++ v :: l2) = l1 ++ v :: tl.
Proof.
  induction l1 as [|a l1 IH]; cbn; intros Hv.
  - destruct (decide (v = v)); [reflexivity|contradiction].
  - destruct (decide (a = v)) as [->|Hne].
    + exfalso. apply Hv. left.
    + f_equal. apply IH. intros Hin. apply Hv. right. exact Hin.
Qed.

(** Two chains that meet continue together. *)
Lemma up_meet (pv : gmap Z Z) n l m lm a b :
  up pv n l → up pv m lm → a ∈ l → a ∈ m :: lm →
  (∃ l1 l2, l = l1 ++ a :: l2 ∧ b ∈ l2) → b ∈ lm.
Proof.
  intros Hn Hm Ha Ham (l1 & l2 & -> & Hb).
  apply up_suffix in Hn.
  apply elem_of_cons in Ham as [->|Ham].
  - rewrite (up_func _ _ _ _ Hm Hn). exact Hb.
  - apply list_elem_of_split in Ham as (m1 & m2 & ->).
    apply up_suffix in Hm. rewrite (up_func _ _ _ _ Hm Hn).
    apply elem_of_app. right. right. exact Hb.
Qed.

(** ** The first node above a key *)

Lemma first_above_app w k (l1 l2 : list Z) :
  first_above w k (l1 ++ l2) =
  match first_above w k l1 with
  | Some a => Some a
  | None => first_above w k l2
  end.
Proof.
  induction l1 as [|a l1 IH]; cbn; [reflexivity|].
  destruct (key_ltb k (key w a)); [reflexivity|exact IH].
Qed.

Lemma first_above_Some w k (l : list Z) a :
  first_above w k l = Some a →
  ∃ l1 l2, l = l1 ++ a :: l2 ∧ klt k (key w a) ∧ first_above w k l1 = None.
Proof.
  induction l as [|b l IH]; cbn; [discriminate|].
  destruct (key_ltb k (key w b)) eqn:E.
  - intros [= ->]. exists [], l. auto.
  - intros H. destruct (IH H) as (l1 & l2 & -> & Hk & Hn).
    exists (b :: l1), l2. cbn. rewrite E. auto.
Qed.

Lemma first_above_None w k (l : list Z) :
  first_above w k l = None ↔ ∀ a, a ∈ l → ¬ klt k (key w a).
Proof.
  induction l as [|b l IH]; cbn.
  - split; [|reflexivity]. intros _ a Ha. inversion Ha.
  - destruct (key_ltb k (key w b)) eqn:E.
    + split; [discriminate|]. intros H. exfalso. apply (H b); [left|exact E].
    + rewrite IH. split.
      * intros H a Ha. apply elem_of_cons in Ha as [->|Ha]; [|auto].
        unfold klt. congruence.
      * intros H a Ha. apply H. right. exact Ha.
Qed.

Lemma first_above_ext w w' k (l : list Z) :
  (∀ a, a ∈ l → key w' a = key w a) →
  first_above w' k l = first_above w k l.
Proof.
  induction l as [|b l IH]; cbn; intros H; [reflexivity|].
  rewrite (H b) by left. rewrite IH; [reflexivity|].
  intros a Ha. apply H. right. exact Ha.
Qed.

(** ** Walks and the recomputed cost of a path *)

Lemma walk_snoc ed a b c d k :
  walk ed a b d → (c, k) ∈ default [] (ed !! b) → walk ed a c (d + k).
Proof.
  induction 1 as [a|a b' b k' d Hin Hw IH]; intros Hc.
  - replace (0 + k) with (k + 0) by lia. eapply walk_step; [exact Hc|apply walk_nil].
  - replace (k' + d + k) with (k' + (d + k)) by lia.
    eapply walk_step; [exact Hin|]. apply IH. exact Hc.
Qed.

Lemma walk_nonneg ed a b d : nonneg_costs ed → walk ed a b d → 0 ≤ d.
Proof.
  intros Hnn. induction 1 as [a|a b' b k d Hin Hw IH]; [lia|].
  assert (0 ≤ k); [|lia].
  destruct (ed !! a) as [es|] eqn:E; cbn in Hin; [|inversion Hin].
  specialize (Hnn a es E). rewrite Forall_forall in Hnn.
  exact (Hnn _ Hin).
Qed.

Lemma elem_of_edge_costs ed a b c :
  c ∈ edge_costs ed a b ↔ (b, c) ∈ default [] (ed !! a).
Proof.
  unfold edge_costs. rewrite list_elem_of_fmap. split.
  - intros ([b' c'] & -> & Hin). apply list_elem_of_filter in Hin as [Hb Hin].
    cbn in Hb. subst b'. exact Hin.
  - intros Hin. exists (b, c). split; [reflexivity|].
    apply list_elem_of_filter. split; [reflexivity|exact Hin].
Qed.

Lemma foldr_min_spec (c : Z) (cs : list Z) :
  foldr Z.min c cs ∈ c :: cs ∧ ∀ c', c' ∈ c :: cs → foldr Z.min c cs ≤ c'.
Proof.
  induction cs as [|a cs [IH1 IH2]]; cbn.
  - split; [left|]. intros c' Hc'. apply list_elem_of_singleton in Hc'. lia.
  - split.
    + destruct (Z.min_spec a (foldr Z.min c cs)) as [[_ ->]|[_ ->]].
      * right. left.
      * apply elem_of_cons in IH1 as [->|IH1]; [left|right; right; exact IH1].
    + intros c' Hc'. apply elem_of_cons in Hc' as [->|Hc'].
      * pose proof (IH2 c (ltac:(left))). lia.
      * apply elem_of_cons in Hc' as [->|Hc']; [lia|].
        pose proof (IH2 c' (ltac:(right; exact Hc'))). lia.
Qed.

Lemma edge_min_Some ed a b c :
  edge_min ed a b = Some c →
  (b, c) ∈ default [] (ed !! a) ∧
  ∀ c', (b, c') ∈ default [] (ed !! a) → c ≤ c'.
Proof.
  unfold edge_min. destruct (edge_costs ed a b) as [|c0 cs] eqn:E; [discriminate|].
  intros [= <-]. destruct (foldr_min_spec c0 cs) as [H1 H2].
  rewrite <- E in H1, H2. split.
  - apply elem_of_edge_costs. exact H1.
  - intros c' Hc'. apply H2. apply elem_of_edge_costs. exact Hc'.
Qed.

Lemma edge_min_exists ed a b c :
  (b, c) ∈ default [] (ed !! a) → ∃ m, edge_min ed a b = Some m ∧ m ≤ c.
Proof.
  intros Hin. apply elem_of_edge_costs in Hin.
  unfold edge_min. destruct (edge_costs ed a b) as [|c0 cs] eqn:E;
    [inversion Hin|].
  exists (foldr Z.min c0 cs). split; [reflexivity|].
  apply foldr_min_spec. exact Hin.
Qed.

Lemma path_cost_snoc ed (l : list Z) a b d c :
  path_cost ed (l ++ [a]) = Some d → edge_min ed a b = Some c →
  path_cost ed ((l ++ [a]) ++ [b]) = Some (d + c).
Proof.
  revert d. induction l as [|n l IH]; intros d; cbn.
  - intros [= <-] ->. f_equal. lia.
  - destruct (l ++ [a]) as [|m l'] eqn:E; [destruct l; discriminate|].
    cbn [app]. destruct (edge_min ed n m) as [k|]; [|discriminate].
    destruct (path_cost ed (m :: l')) as [r|] eqn:Er; [|discriminate].
    intros [= <-] Hc. specialize (IH r eq_refl Hc). cbn [app] in IH.
    change (path_cost ed (n :: m :: l' ++ [b]))
      with (match edge_min ed n m, path_cost ed (m :: l' ++ [b]) with
            | Some c, Some r => Some (c + r)
            | _, _ => None
            end).
    rewrite IH. f_equal. lia.
Qed.

Lemma head_rev_snoc (l : list Z) : ∀ n, head (rev l ++ [n]) = last (n :: l).
Proof.
  induction l as [|a l IH]; intros n; [reflexivity|].
  cbn [rev]. rewrite last_cons_cons. rewrite <- IH.
  destruct (rev l) as [|b r]; reflexivity.
Qed.

(** A path with a cost is a walk of that cost. *)
Lemma path_cost_walk ed (p : list Z) : ∀ a d,
  head p = Some a → path_cost ed p = Some d →
  ∃ b, last p = Some b ∧ walk ed a b d.
Proof.
  induction p as [|n p IH]; intros a d; [discriminate|].
  cbn [head]. intros [= ->]. destruct p as [|m p].
  - cbn. intros [= <-]. exists a. split; [reflexivity|apply walk_nil].
  - change (path_cost ed (a :: m :: p))
      with (match edge_min ed a m, path_cost ed (m :: p) with
            | Some c, Some r => Some (c + r)
            | _, _ => None
            end).
    destruct (edge_min ed a m) as [k|] eqn:Ek; [|discriminate].
    destruct (path_cost ed (m :: p)) as [r|] eqn:Er; [|discriminate].
    intros [= <-]. destruct (IH m r eq_refl eq_refl) as (b & Hb & Hw).
    exists b. split; [rewrite last_cons_cons; exact Hb|].
    eapply walk_step; [|exact Hw]. apply edge_min_Some in Ek as [Hin _]. exact Hin.
Qed.


(** ** The invariant is kept by every step *)

Section Invariant.

Context (hypot : Z → Z → Z) (goal start : Z).

#[local] Abbreviation inv := (inv hypot goal start).

Lemma edge_nonneg (w : World) p v c :
  nonneg_costs (edges w) → (v, c) ∈ edges_get w p → 0 ≤ c.
Proof.
  unfold nonneg_costs, edges_get. intros Hnn Hin.
  destruct (edges w !! p) as [es|] eqn:E; cbn in Hin; [|inversion Hin].
  specialize (Hnn p es E). rewrite Forall_forall in Hnn.
  exact (Hnn _ Hin).
Qed.

Lemma inv_fin u pend w n c :
  inv u pend w → g_cost w !! n = Some c → ∃ v, c = Fin v ∧ 0 ≤ v.
Proof.
  intros I H. destruct (inv_vals _ _ _ _ _ _ I n c H) as (v & hv & -> & ? & _).
  eauto.
Qed.

Lemma inv_seen u pend w n :
  inv u pend w → is_Some (g_cost w !! n) →
  ∃ v, g_cost w !! n = Some (Fin v) ∧ 0 ≤ v.
Proof.
  intros I [c H]. destruct (inv_fin _ _ _ _ _ I H) as (v & -> & ?). eauto.
Qed.

Lemma inv_dd_get (w : World) n v :
  g_cost w !! n = Some (Fin v) → dd_get (g_cost w) n = Fin v.
Proof. intros H. unfold dd_get. rewrite H. reflexivity. Qed.

(** Along a chain the g-costs do not increase, and every node is seen. *)
Lemma inv_up_le u pend w n l :
  inv u pend w → up (prev w) n l →
  ∀ gn, g_cost w !! n = Some (Fin gn) →
  ∀ a, a ∈ l → ∃ ga, g_cost w !! a = Some (Fin ga) ∧ ga ≤ gn.
Proof.
  intros I H. induction H as [n Hn|n p l Hn Hp IH]; intros gn Hgn a Ha.
  - inversion Ha.
  - destruct (inv_prev _ _ _ _ _ _ I n p Hn) as (c & gp & gn' & Hin & Hgp & Hgn' & Hle).
    assert (gn' = gn) by congruence. subst gn'.
    pose proof (edge_nonneg w p n c (inv_nonneg _ _ _ _ _ _ I) Hin) as Hc.
    apply elem_of_cons in Ha as [->|Ha].
    + exists gp. split; [exact Hgp|lia].
    + destruct (IH gp Hgp a Ha) as (ga & Hga & Hle'). exists ga. split; [exact Hga|lia].
Qed.

Lemma inv_up_seen u pend w n l a :
  inv u pend w → up (prev w) n l → a ∈ l → is_Some (g_cost w !! a).
Proof.
  intros I H Ha. induction H as [n Hn|n p l Hn Hp IH]; [inversion Ha|].
  apply elem_of_cons in Ha as [->|Ha]; [|auto].
  destruct (inv_prev _ _ _ _ _ _ I n p Hn) as (c & gp & gn' & Hin & Hgp & _).
  eauto.
Qed.

(** The root of every chain is the start node. *)
Lemma inv_up_root u pend w n l :
  inv u pend w → is_Some (g_cost w !! n) → up (prev w) n l →
  last (n :: l) = Some start.
Proof.
  intros I Hn H. induction H as [n Hpn|n p l Hpn Hp IH].
  - cbn. f_equal. destruct (decide (n = start)) as [|Hne]; [done|].
    destruct (inv_has_prev _ _ _ _ _ _ I n Hn Hne) as [p Hp]. congruence.
  - rewrite last_cons_cons. apply IH.
    destruct (inv_prev _ _ _ _ _ _ I n p Hpn) as (c & gp & gn' & Hin & Hgp & _).
    eauto.
Qed.

Lemma inv_pivot u u' w : inv u [] w → inv u' [] w.
Proof.
  intros I. destruct I as [Idisj Idom Ivals Istart Iprev Ihas Ichain Inn Irel Igoal]. constructor; try assumption.
  intros p v c gp Hp Hin Hg.
  destruct (Irel p v c gp Hp Hin Hg) as [[_ H]|H]; [inversion H|].
  right. exact H.
Qed.

Lemma inv_init nd ed na ng :
  nonneg_costs ed → nd !! start = Some na → nd !! goal = Some ng →
  inv start []
    (mkWorld nd ed {[start]} ∅ {[start := Fin 0]}
       {[start := Fin (hypot (x ng - x na) (z ng - z na))]} ∅).
Proof.
  intros Hnn Hs Hg. constructor; cbn.
  - set_solver.
  - intros n. rewrite elem_of_union, elem_of_singleton.
    destruct (decide (n = start)) as [->|Hne].
    + rewrite lookup_singleton_eq. split; eauto.
    + rewrite lookup_singleton_ne by done. split.
      * intros [?|H]; [done|]. set_solver.
      * intros [? ?]. discriminate.
  - intros n c H. apply lookup_singleton_Some in H as [<- <-].
    exists 0, (hypot (x ng - x na) (z ng - z na)).
    split; [reflexivity|]. split; [lia|]. split.
    + unfold h. rewrite Hg, Hs. reflexivity.
    + rewrite lookup_singleton_eq. reflexivity.
  - split; [apply lookup_singleton_eq|apply lookup_empty].
  - intros n p H. rewrite lookup_empty in H. discriminate.
  - intros n [c H] Hne. apply lookup_singleton_Some in H as [<- _]. done.
  - intros n [c H]. apply lookup_singleton_Some in H as [<- _].
    exists []. apply up_root. apply lookup_empty.
  - exact Hnn.
  - intros p v c gp Hp. set_solver.
  - set_solver.
Qed.

(** Moving the selected node from Open to Closed. *)
Lemma inv_move u0 u w :
  inv u0 [] w → u ∈ open_set w → u ≠ goal →
  inv u (edges_get w u) (move u w).
Proof.
  intros I Hu Hne. destruct I as [Idisj Idom Ivals Istart Iprev Ihas Ichain Inn Irel Igoal]. constructor; cbn; try assumption.
  - set_solver.
  - intros n. rewrite <- Idom.
    destruct (decide (n = u)) as [->|]; set_solver.
  - intros p v c gp Hp Hin Hg.
    apply elem_of_union in Hp as [Hp|Hp].
    + apply elem_of_singleton in Hp as ->. left. split; [reflexivity|exact Hin].
    + destruct (Irel p v c gp Hp Hin Hg) as [[_ H]|H]; [inversion H|].
      right. exact H.
  - set_solver.
Qed.

(** A relaxation that does not improve. *)
Lemma inv_skip u v c pend w gu :
  inv u ((v, c) :: pend) w → g_cost w !! u = Some (Fin gu) →
  cltb (Fin (gu + c)) (dd_get (g_cost w) v) = false →
  inv u pend w.
Proof.
  intros I Hgu Hlt. pose proof I as I0. destruct I as [Idisj Idom Ivals Istart Iprev Ihas Ichain Inn Irel Igoal]. constructor; try assumption.
  intros p v' c' gp Hp Hin Hg.
  destruct (Irel p v' c' gp Hp Hin Hg) as [[-> H]|H]; [|right; exact H].
  apply elem_of_cons in H as [[= -> ->]|H]; [|left; auto].
  right. assert (gp = gu) by congruence. subst gp.
  unfold dd_get in Hlt. destruct (g_cost w !! v) as [cv|] eqn:Ev; cbn in Hlt;
    [|discriminate].
  destruct (inv_fin _ _ _ _ _ I0 Ev) as (gv & -> & _). cbn in Hlt.
  exists gv. split; [reflexivity|]. apply Z.ltb_ge in Hlt. lia.
Qed.

(** The target of an improving relaxation is not on the chain of [u]. *)
Lemma improve_notin u v c pend w gu lu :
  inv u pend w → g_cost w !! u = Some (Fin gu) → 0 ≤ c →
  cltb (Fin (gu + c)) (dd_get (g_cost w) v) = true →
  up (prev w) u lu → v ∉ u :: lu.
Proof.
  intros I Hgu Hc Hlt Hup Hin.
  assert (∃ gv, g_cost w !! v = Some (Fin gv) ∧ gv ≤ gu) as (gv & Hgv & Hle).
  { apply elem_of_cons in Hin as [->|Hin]; [exists gu; split; [done|lia]|].
    eapply inv_up_le; eauto. }
  unfold dd_get in Hlt. rewrite Hgv in Hlt. cbn in Hlt.
  apply Z.ltb_lt in Hlt. lia.
Qed.

(** An improving relaxation. *)
Lemma inv_improve u v c pend w gu hv :
  inv u ((v, c) :: pend) w → g_cost w !! u = Some (Fin gu) →
  (v, c) ∈ edges_get w u →
  cltb (Fin (gu + c)) (dd_get (g_cost w) v) = true →
  h hypot (nodes w) v goal = inr hv →
  inv u pend (improve u v (gu + c) hv w).
Proof.
  intros I Hgu Hin Hlt Hh.
  pose proof (edge_nonneg w u v c (inv_nonneg _ _ _ _ _ _ I) Hin) as Hc.
  destruct (inv_seen _ _ _ u I (ltac:(eauto))) as (gu' & Hgu' & Hgu0).
  assert (gu' = gu) by congruence. subst gu'.
  destruct (inv_chain _ _ _ _ _ _ I u (ltac:(eauto))) as [lu Hlu].
  pose proof (improve_notin _ _ _ _ _ _ _ I Hgu Hc Hlt Hlu) as Hnotin.
  assert (v ≠ u) as Hvu by (intros ->; apply Hnotin; left).
  assert (v ≠ start) as Hvs.
  { intros ->. destruct (inv_start _ _ _ _ _ _ I) as [Hs _].
    unfold dd_get in Hlt. rewrite Hs in Hlt. cbn in Hlt.
    apply Z.ltb_lt in Hlt. lia. }
  assert (∀ gv, g_cost w !! v = Some (Fin gv) → gu + c < gv) as Hold.
  { intros gv Hgv. unfold dd_get in Hlt. rewrite Hgv in Hlt. cbn in Hlt.
    apply Z.ltb_lt in Hlt. exact Hlt. }
  pose proof I as I0. destruct I as [Idisj Idom Ivals Istart Iprev Ihas Ichain Inn Irel Igoal]. constructor; cbn.
  - set_solver.
  - intros n. destruct (decide (n = v)) as [->|Hne].
    + rewrite lookup_insert_eq. split; [eauto|]. set_solver.
    + rewrite lookup_insert_ne by done. rewrite <- Idom. set_solver.
  - intros n c' H. destruct (decide (n = v)) as [->|Hne].
    + rewrite lookup_insert_eq in H. injection H as <-.
      exists (gu + c), hv. rewrite lookup_insert_eq. split_and!; auto; lia.
    + rewrite lookup_insert_ne in H by done.
      rewrite lookup_insert_ne by done. eauto.
  - rewrite !lookup_insert_ne by done. exact Istart.
  - intros n p H. destruct (decide (n = v)) as [->|Hne].
    + rewrite lookup_insert_eq in H. injection H as <-.
      exists c, gu, (gu + c). rewrite lookup_insert_eq.
      rewrite lookup_insert_ne by done. split_and!; auto; lia.
    + rewrite lookup_insert_ne in H by done.
      destruct (Iprev n p H) as (c0 & gp & gn & Hin0 & Hgp & Hgn & Hle).
      rewrite (lookup_insert_ne _ v n) by done.
      destruct (decide (p = v)) as [->|Hpv].
      * exists c0, (gu + c), gn. rewrite lookup_insert_eq.
        pose proof (Hold gp Hgp). split_and!; auto; lia.
      * exists c0, gp, gn. rewrite lookup_insert_ne by done. auto.
  - intros n Hn Hne. destruct (decide (n = v)) as [->|Hnv].
    + rewrite lookup_insert_eq. eauto.
    + rewrite lookup_insert_ne in Hn by done.
      rewrite lookup_insert_ne by done. auto.
  - intros n Hn. destruct (decide (n = v)) as [->|Hnv].
    + exists (u :: lu). apply up_improve_self; assumption.
    + rewrite lookup_insert_ne in Hn by done.
      destruct (Ichain n Hn) as [l Hl].
      exists (splice v (u :: lu) l). apply up_improve; assumption.
  - exact Inn.
  - intros p v' c' gp Hp Hin' Hg.
    assert (p ≠ v) as Hpv by set_solver.
    rewrite lookup_insert_ne in Hg by done.
    assert (p ∈ closed_set w) as Hp' by set_solver.
    destruct (Irel p v' c' gp Hp' Hin' Hg) as [[-> H]|H].
    + assert (gp = gu) by congruence. subst gp.
      apply elem_of_cons in H as [[= -> ->]|H]; [|left; auto].
      right. exists (gu + c). rewrite lookup_insert_eq. split; [done|lia].
    + right. destruct H as (gv & Hgv & Hle).
      destruct (decide (v' = v)) as [->|Hne].
      * exists (gu + c). rewrite lookup_insert_eq. split; [done|].
        pose proof (Hold gv Hgv). lia.
      * exists gv. rewrite lookup_insert_ne by done. auto.
  - set_solver.
Qed.


#[local] Abbreviation mid := (mid hypot goal start).

Lemma mid_start u0 u w :
  inv u0 [] w → u ∈ open_set w → u ≠ goal →
  ∃ gu, mid u gu (edges_get w u) (move u w).
Proof.
  intros I Hu Hne.
  assert (is_Some (g_cost w !! u)) as Hs.
  { apply (inv_dom _ _ _ _ _ _ I). set_solver. }
  destruct (inv_seen _ _ _ u I Hs) as (gu & Hgu & _).
  exists gu. split; [apply (inv_move u0); assumption|].
  split; [unfold move; cbn; set_solver|]. split; [exact Hgu|].
  intros e He. exact He.
Qed.

Lemma mid_skip u gu v c pend w :
  mid u gu ((v, c) :: pend) w →
  cltb (Fin (gu + c)) (dd_get (g_cost w) v) = false →
  mid u gu pend w.
Proof.
  intros (I & Hu & Hgu & Hpend) Hlt.
  split; [eapply inv_skip; eassumption|]. split; [exact Hu|].
  split; [exact Hgu|]. intros e He. apply Hpend. right. exact He.
Qed.

Lemma mid_improve u gu v c pend w hv :
  mid u gu ((v, c) :: pend) w →
  cltb (Fin (gu + c)) (dd_get (g_cost w) v) = true →
  h hypot (nodes w) v goal = inr hv →
  mid u gu pend (improve u v (gu + c) hv w) ∧ v ≠ u.
Proof.
  intros (I & Hu & Hgu & Hpend) Hlt Hh.
  assert ((v, c) ∈ edges_get w u) as Hin by (apply Hpend; left).
  pose proof (edge_nonneg w u v c (inv_nonneg _ _ _ _ _ _ I) Hin) as Hc.
  destruct (inv_chain _ _ _ _ _ _ I u (ltac:(eauto))) as [lu Hlu].
  pose proof (improve_notin _ _ _ _ _ _ _ I Hgu Hc Hlt Hlu) as Hnotin.
  assert (v ≠ u) as Hvu by (intros ->; apply Hnotin; left).
  split; [|exact Hvu].
  split; [eapply inv_improve; eassumption|].
  split; [cbn; set_solver|]. split.
  - cbn. rewrite lookup_insert_ne by done. exact Hgu.
  - intros e He. apply Hpend. right. exact He.
Qed.

(** One relaxation in a state of the invariant. *)
Lemma relax_mid u gu v c pend w r :
  mid u gu ((v, c) :: pend) w → relax hypot goal u w (v, c) = r →
  (cltb (Fin (gu + c)) (dd_get (g_cost w) v) = false ∧ r = Ok w) ∨
  (cltb (Fin (gu + c)) (dd_get (g_cost w) v) = true ∧
   ∃ hv, h hypot (nodes w) v goal = inr hv ∧
         r = Ok (improve u v (gu + c) hv w)) ∨
  (cltb (Fin (gu + c)) (dd_get (g_cost w) v) = true ∧
   ∃ e w', h hypot (nodes w) v goal = inl e ∧ r = Exc e w').
Proof.
  intros (I & Hu & Hgu & Hpend) <-.
  destruct (relax_spec hypot goal w u v c gu
              (inv_disj _ _ _ _ _ _ I) (inv_dom _ _ _ _ _ _ I) Hgu)
    as [[H1 H2]|[[H1 (hv & H2 & H3)]|[H1 (e & w' & H2 & H3 & _)]]]; eauto 10.
Qed.

(** Induction over the [for] loop: a property kept by a relaxation that
    skips and by one that improves holds when the loop completes. *)
Lemma relax_all_ind u gu (P : list (Z * Z) → World → Prop) :
  (∀ v c pend w, mid u gu ((v, c) :: pend) w → P ((v, c) :: pend) w →
     cltb (Fin (gu + c)) (dd_get (g_cost w) v) = false → P pend w) →
  (∀ v c pend w hv, mid u gu ((v, c) :: pend) w → P ((v, c) :: pend) w →
     cltb (Fin (gu + c)) (dd_get (g_cost w) v) = true →
     h hypot (nodes w) v goal = inr hv →
     P pend (improve u v (gu + c) hv w)) →
  ∀ pend w w', mid u gu pend w → P pend w →
    relax_all hypot goal u w pend = Ok w' → mid u gu [] w' ∧ P [] w'.
Proof.
  intros Hskip Himp. induction pend as [|[v c] pend IH]; intros w w' M HP; cbn.
  - intros [= <-]. auto.
  - destruct (relax_mid _ _ _ _ _ _ _ M eq_refl)
      as [[H1 ->]|[[H1 (hv & H2 & ->)]|[H1 (e & w1 & H2 & ->)]]].
    + apply IH; [eapply mid_skip; eassumption|eauto].
    + apply IH; [eapply mid_improve; eassumption|eauto].
    + discriminate.
Qed.

Lemma relax_all_mid u gu pend w w' :
  mid u gu pend w → relax_all hypot goal u w pend = Ok w' → mid u gu [] w'.
Proof.
  intros M H.
  pose proof (relax_all_ind u gu (λ _ _, True)) as Hind. cbn in Hind.
  destruct (Hind (λ _ _ _ _ _ _ _, I) (λ _ _ _ _ _ _ _ _ _, I) pend w w' M I H)
    as [M' _].
  exact M'.
Qed.

(** Selection: the chosen node is open and no open node has a smaller key. *)
Lemma select_Some (w : World) u :
  select w = Some u →
  u ∈ open_set w ∧ ∀ n, n ∈ open_set w → ¬ klt (key w n) (key w u).
Proof.
  unfold select. intros H. apply min_by_Some in H as [Hin Hmin].
  split; [apply elem_of_elements; exact Hin|].
  intros n Hn. apply (Hmin n). apply elem_of_elements. exact Hn.
Qed.

Lemma select_None (w : World) : select w = None → open_set w = ∅.
Proof.
  unfold select. intros H. apply min_by_None in H.
  apply elements_empty_inv in H. apply leibniz_equiv. exact H.
Qed.

(** One iteration of the main loop keeps the invariant. *)
Lemma inv_expand u0 u w w' :
  inv u0 [] w → select w = Some u → u ≠ goal →
  expand hypot goal u w = Ok w' → inv start [] w'.
Proof.
  intros I Hsel Hne Hex. apply select_Some in Hsel as [Hu _].
  destruct (mid_start u0 u w I Hu Hne) as [gu M].
  unfold expand in Hex. fold (move u w) in Hex.
  replace (edges_get (move u w) u) with (edges_get w u) in Hex by reflexivity.
  pose proof (relax_all_mid _ _ _ _ _ M Hex) as (I' & _).
  eapply inv_pivot. exact I'.
Qed.


(** ** Rebuilding the path *)

Lemma rebuild_up (pv : gmap Z Z) n l :
  up pv n l → ∀ tl k, (length l < k)%nat →
  rebuild k pv n tl = Some (rev l ++ n :: tl).
Proof.
  induction 1 as [n Hn|n p l Hn Hp IH]; intros tl k Hk.
  - destruct k as [|k]; [lia|]. cbn. rewrite Hn. reflexivity.
  - destruct k as [|k]; [cbn in Hk; lia|]. cbn. rewrite Hn.
    rewrite IH by (cbn in Hk; lia). rewrite <- app_assoc. reflexivity.
Qed.

Lemma rebuild_Some (pv : gmap Z Z) k : ∀ n tl p,
  rebuild k pv n tl = Some p → ∃ l, up pv n l ∧ p = rev l ++ n :: tl.
Proof.
  induction k as [|k IH]; intros n tl p; cbn; [discriminate|].
  destruct (pv !! n) as [q|] eqn:E.
  - intros H. destruct (IH _ _ _ H) as (l & Hl & ->).
    exists (q :: l). split; [apply up_step; assumption|].
    cbn. rewrite <- app_assoc. reflexivity.
  - intros [= <-]. exists []. split; [apply up_root; assumption|reflexivity].
Qed.

Lemma linked_snoc ed (l : list Z) a b k :
  linked ed (l ++ [a]) → (b, k) ∈ default [] (ed !! a) →
  linked ed ((l ++ [a]) ++ [b]).
Proof.
  intros Hl Hin. induction l as [|c l IH]; cbn.
  - eauto.
  - cbn in Hl. destruct (l ++ [a]) as [|d l'] eqn:E.
    + destruct l; discriminate.
    + cbn. destruct Hl as [He Hl]. split; [exact He|]. apply IH. exact Hl.
Qed.

Lemma linked_lookup ed (p : list Z) :
  linked ed p → ∀ (i : nat) a b, p !! i = Some a → p !! S i = Some b →
  ∃ k, (b, k) ∈ default [] (ed !! a).
Proof.
  induction p as [|c p IH]; intros Hl i a b Ha Hb; [discriminate|].
  destruct p as [|d p]; [discriminate|].
  destruct Hl as [He Hl]. destruct i as [|i].
  - cbn in Ha, Hb. injection Ha as <-. injection Hb as <-. exact He.
  - apply (IH Hl i); assumption.
Qed.

Lemma inv_up_linked u pend w n l :
  inv u pend w → up (prev w) n l → linked (edges w) (rev l ++ [n]).
Proof.
  intros I H. induction H as [n Hn|n p l Hn Hp IH]; cbn; [exact Logic.I|].
  destruct (inv_prev _ _ _ _ _ _ I n p Hn) as (c & _ & _ & Hin & _).
  rewrite <- app_assoc. cbn.
  change (rev l ++ [p; n]) with (rev l ++ [p] ++ [n]). rewrite app_assoc.
  eapply linked_snoc; [exact IH|exact Hin].
Qed.

(** ** The main loop *)

(** A property kept by every iteration holds in the state the search
    returns from, which is a state where Open is empty or the goal is
    selected. *)
Lemma search_sound (Q : World → Prop) :
  (∀ w u w', inv start [] w → Q w → select w = Some u → u ≠ goal →
     expand hypot goal u w = Ok w' → Q w') →
  ∀ fuel w p c w', inv start [] w → Q w →
    search hypot goal fuel w = (Return p c, w') →
    inv start [] w' ∧ Q w' ∧
    ((select w' = None ∧ p = [] ∧ c = Inf) ∨
     (select w' = Some goal ∧ c = dd_get (g_cost w') goal ∧
      ∃ l, up (prev w') goal l ∧ p = rev l ++ [goal])).
Proof.
  intros HQ. induction fuel as [|fuel IH]; intros w p c w' I HQw; cbn;
    [discriminate|].
  destruct (select w) as [u|] eqn:Hsel.
  - destruct (bool_decide (u = goal)) eqn:Hg.
    + apply bool_decide_eq_true in Hg as ->.
      destruct (rebuild fuel (prev w) goal []) as [path|] eqn:Hr; [|discriminate].
      intros [= <- <- <-]. split; [exact I|]. split; [exact HQw|]. right.
      split; [exact Hsel|]. split; [reflexivity|].
      apply rebuild_Some in Hr. exact Hr.
    + apply bool_decide_eq_false in Hg.
      destruct (expand hypot goal u w) as [w1|e w1] eqn:Hex; [|discriminate].
      intros H.
      assert (inv start [] w1) as I1 by (eapply inv_expand; eassumption).
      assert (Q w1) as Q1 by exact (HQ w u w1 I HQw Hsel Hg Hex).
      exact (IH w1 p c w' I1 Q1 H).
  - intros [= <- <- <-]. split; [exact I|]. split; [exact HQw|]. left. auto.
Qed.

(** More fuel does not change a result. *)
Lemma rebuild_mono (pv : gmap Z Z) k : ∀ k' n tl p,
  rebuild k pv n tl = Some p → (k ≤ k')%nat → rebuild k' pv n tl = Some p.
Proof.
  induction k as [|k IH]; intros k' n tl p; cbn; [discriminate|].
  intros H Hk. destruct k' as [|k']; [lia|]. cbn.
  destruct (pv !! n); [|exact H]. apply IH; [exact H|lia].
Qed.

Lemma search_mono fuel : ∀ fuel' w o w',
  search hypot goal fuel w = (o, w') → o ≠ OutOfFuel → (fuel ≤ fuel')%nat →
  search hypot goal fuel' w = (o, w').
Proof.
  induction fuel as [|fuel IH]; intros fuel' w o w'; cbn.
  - intros [= <- <-]. contradiction.
  - intros H Ho Hk. destruct fuel' as [|fuel']; [lia|]. cbn.
    destruct (select w) as [u|]; [|exact H].
    destruct (bool_decide (u = goal)).
    + destruct (rebuild fuel (prev w) goal []) as [path|] eqn:Hr.
      * rewrite (rebuild_mono _ _ fuel' _ _ _ Hr) by lia. exact H.
      * injection H as <- <-. contradiction.
    + destruct (expand hypot goal u w) as [w1|e w1]; [|exact H].
      apply IH; [exact H|exact Ho|lia].
Qed.


(** ** Termination *)

Lemma gsum_insert_new (m : gmap Z cost) k c :
  m !! k = None → gsum (<[k:=c]> m) = gsum m + cval c.
Proof.
  intros H. unfold gsum. rewrite map_fold_insert_L; [reflexivity| |exact H].
  intros. lia.
Qed.

Lemma gsum_delete (m : gmap Z cost) k c :
  m !! k = Some c → gsum m = gsum (delete k m) + cval c.
Proof.
  intros H. unfold gsum. rewrite (map_fold_delete_L _ _ k c m); [reflexivity| |exact H].
  intros. lia.
Qed.

Lemma gsum_insert_old (m : gmap Z cost) k c c' :
  m !! k = Some c → gsum (<[k:=c']> m) = gsum m - cval c + cval c'.
Proof.
  intros H. rewrite <- insert_delete_eq.
  rewrite gsum_insert_new by apply lookup_delete_eq.
  rewrite (gsum_delete m k c H). lia.
Qed.

Lemma gsum_nonneg (m : gmap Z cost) :
  (∀ k c, m !! k = Some c → 0 ≤ cval c) → 0 ≤ gsum m.
Proof.
  unfold gsum.
  apply (map_fold_weak_ind
           (λ r m, (∀ k c, m !! k = Some c → 0 ≤ cval c) → 0 ≤ r)).
  - intros _. lia.
  - intros i c m' r Hi IH H.
    assert (0 ≤ cval c) by (apply (H i); apply lookup_insert_eq).
    assert (0 ≤ r).
    { apply IH. intros k c' Hk. apply (H k).
      rewrite lookup_insert_ne; [exact Hk|]. intros ->. congruence. }
    lia.
Qed.

Lemma inv_gsum_nonneg u pend w : inv u pend w → 0 ≤ gsum (g_cost w).
Proof.
  intros I. apply gsum_nonneg. intros k c H.
  destruct (inv_fin _ _ _ _ _ I H) as (v & -> & ?). exact H0.
Qed.

Lemma lt3_wf : well_founded lt3.
Proof.
  intros [[a b] c]. revert b c.
  induction a as [a IHa] using lt_wf_ind. intros b.
  induction b as [b IHb] using lt_wf_ind. intros c.
  induction c as [c IHc] using lt_wf_ind.
  constructor. intros [[a' b'] c'] Hlt. unfold lt3 in Hlt; cbn in Hlt.
  destruct Hlt as [H|[[-> H]|(-> & -> & H)]]; auto.
Qed.

Lemma lt2_trans w1 w2 w3 : lt2 w1 w2 → lt2 w2 w3 → lt2 w1 w3.
Proof. unfold lt2. lia. Qed.

Lemma lt2_lt3 w' w : lt2 w' w → lt3 (measure w') (measure w).
Proof. unfold lt2, lt3, measure; cbn. lia. Qed.

Lemma measure_move w u :
  u ∈ open_set w → lt3 (measure (move u w)) (measure w).
Proof.
  intros Hu. unfold lt3, measure, unseen, move; cbn. right. right.
  split; [reflexivity|]. split; [reflexivity|].
  apply subset_size. set_solver.
Qed.

Lemma lt2_move w' u w : lt2 w' (move u w) → lt2 w' w.
Proof. unfold lt2, unseen, move; cbn. auto. Qed.

(** An improving relaxation lowers the measure. *)
Lemma lt2_improve u gu v c pend w hv :
  mid u gu ((v, c) :: pend) w →
  cltb (Fin (gu + c)) (dd_get (g_cost w) v) = true →
  h hypot (nodes w) v goal = inr hv →
  lt2 (improve u v (gu + c) hv w) w.
Proof.
  intros M Hlt Hh.
  destruct (mid_improve _ _ _ _ _ _ _ M Hlt Hh) as [(I' & _) _].
  destruct M as (I & _).
  pose proof (inv_gsum_nonneg _ _ _ I') as Hnn. cbn in Hnn.
  unfold lt2, unseen; cbn.
  destruct (g_cost w !! v) as [cv|] eqn:Ev.
  - right. destruct (inv_fin _ _ _ _ _ I Ev) as (gv & -> & Hgv).
    unfold dd_get in Hlt. rewrite Ev in Hlt. cbn in Hlt. apply Z.ltb_lt in Hlt.
    rewrite (gsum_insert_old _ _ _ _ Ev) in *. cbn in *.
    split; [|lia]. f_equal. rewrite dom_insert_L.
    assert (v ∈ dom (g_cost w)) by (apply elem_of_dom; eauto). set_solver.
  - left. apply subset_size. rewrite dom_insert_L.
    apply h_inr in Hh as (na & _ & Hna & _).
    assert (v ∈ dom (nodes w)) by (apply elem_of_dom; eauto).
    assert (v ∉ dom (g_cost w)) by (apply not_elem_of_dom; exact Ev).
    set_solver.
Qed.

Lemma edges_get_known (w : World) p v c :
  targets_known (nodes w) (edges w) → (v, c) ∈ edges_get w p →
  is_Some (nodes w !! v).
Proof.
  unfold targets_known, edges_get. intros Hk Hin.
  destruct (edges w !! p) as [es|] eqn:E; cbn in Hin; [|inversion Hin].
  specialize (Hk p es E). rewrite Forall_forall in Hk.
  exact (Hk _ Hin).
Qed.

Lemma inv_goal_known u pend w :
  inv u pend w → is_Some (nodes w !! goal).
Proof.
  intros I. destruct (inv_start _ _ _ _ _ _ I) as [Hs _].
  destruct (inv_vals _ _ _ _ _ _ I _ _ Hs) as (v & hv & _ & _ & Hh & _).
  apply h_inr in Hh as (na & nb & _ & Hb & _). eauto.
Qed.

(** With every target a node of the graph, the [for] loop completes. *)
Lemma relax_all_total u gu w1 : ∀ pend w,
  mid u gu pend w → targets_known (nodes w) (edges w) →
  w = w1 ∨ lt2 w w1 →
  ∃ w', relax_all hypot goal u w pend = Ok w' ∧ (w' = w1 ∨ lt2 w' w1).
Proof.
  induction pend as [|[v c] pend IH]; intros w M Hk Hrel; cbn.
  - eauto.
  - destruct (relax_mid _ _ _ _ _ _ _ M eq_refl)
      as [[H1 ->]|[[H1 (hv & H2 & ->)]|[H1 (e & w2 & H2 & ->)]]].
    + apply IH; [eapply mid_skip; eassumption|exact Hk|exact Hrel].
    + apply IH.
      * eapply mid_improve; eassumption.
      * exact Hk.
      * right. pose proof (lt2_improve _ _ _ _ _ _ _ M H1 H2) as Hlt.
        destruct Hrel as [->|Hrel]; [exact Hlt|].
        eapply lt2_trans; eassumption.
    + exfalso. destruct M as (I & _ & _ & Hpend).
      assert ((v, c) ∈ edges_get w u) as Hin by (apply Hpend; left).
      destruct (h_known hypot (nodes w) v goal) as [hv Hhv].
      * eapply edges_get_known; eassumption.
      * eapply inv_goal_known; eassumption.
      * congruence.
Qed.

Lemma expand_total u0 u w :
  inv u0 [] w → targets_known (nodes w) (edges w) →
  select w = Some u → u ≠ goal →
  ∃ w', expand hypot goal u w = Ok w' ∧ lt3 (measure w') (measure w).
Proof.
  intros I Hk Hsel Hne. apply select_Some in Hsel as [Hu _].
  destruct (mid_start u0 u w I Hu Hne) as [gu M].
  destruct (relax_all_total u gu (move u w) (edges_get w u) (move u w) M Hk)
    as (w' & Hex & Hrel); [left; reflexivity|].
  exists w'. split; [exact Hex|].
  destruct Hrel as [->|Hrel].
  - apply measure_move. exact Hu.
  - apply lt2_lt3. eapply lt2_move. exact Hrel.
Qed.

(** With nonnegative costs and known targets the search returns. *)
Lemma search_total : ∀ w,
  inv start [] w → targets_known (nodes w) (edges w) →
  ∃ n p c w', ∀ fuel, (n ≤ fuel)%nat →
    search hypot goal fuel w = (Return p c, w').
Proof.
  intros w. remember (measure w) as m eqn:Hm. revert w Hm.
  induction (lt3_wf m) as [m _ IH]. intros w -> I Hk.
  destruct (select w) as [u|] eqn:Hsel.
  - destruct (decide (u = goal)) as [->|Hne].
    + assert (is_Some (g_cost w !! goal)) as Hs.
      { apply select_Some in Hsel as [Hu _].
        apply (inv_dom _ _ _ _ _ _ I). set_solver. }
      destruct (inv_chain _ _ _ _ _ _ I goal Hs) as [l Hl].
      exists (S (S (length l))), (rev l ++ [goal]), (dd_get (g_cost w) goal), w.
      intros fuel Hf. destruct fuel as [|fuel]; [lia|]. cbn.
      rewrite Hsel. rewrite bool_decide_eq_true_2 by reflexivity.
      rewrite (rebuild_up _ _ _ Hl) by lia. reflexivity.
    + destruct (expand_total start u w I Hk Hsel Hne) as (w1 & Hex & Hlt).
      assert (inv start [] w1) as I1 by (eapply inv_expand; eassumption).
      assert (targets_known (nodes w1) (edges w1)) as Hk1.
      { pose proof (expand_frame hypot goal u w) as [E1 E2].
        rewrite Hex in E1, E2. cbn in E1, E2. rewrite E1, E2. exact Hk. }
      destruct (IH (measure w1) Hlt w1 eq_refl I1 Hk1) as (n & p & c & w' & Hn).
      exists (S n), p, c, w'. intros fuel Hf.
      destruct fuel as [|fuel]; [lia|]. cbn.
      rewrite Hsel. rewrite bool_decide_eq_false_2 by exact Hne.
      rewrite Hex. apply Hn. lia.
  - exists 1%nat, [], Inf, w. intros fuel Hf.
    destruct fuel as [|fuel]; [lia|]. cbn. rewrite Hsel. reflexivity.
Qed.


(** ** Reachability and the cost of the chains *)

Lemma inv_reachable u pend w n :
  inv u pend w → is_Some (g_cost w !! n) → ∃ d, walk (edges w) start n d.
Proof.
  intros I Hn. destruct (inv_chain _ _ _ _ _ _ I n Hn) as [l Hl].
  induction Hl as [n Hpn|n p l Hpn Hp IH].
  - destruct (decide (n = start)) as [->|Hne]; [exists 0; apply walk_nil|].
    destruct (inv_has_prev _ _ _ _ _ _ I n Hn Hne) as [p Hp]. congruence.
  - destruct (inv_prev _ _ _ _ _ _ I n p Hpn) as (c & gp & gn & Hin & Hgp & _).
    destruct IH as [d Hd]; [eauto|].
    exists (d + c). eapply walk_snoc; [exact Hd|exact Hin].
Qed.


Lemma inv_key u pend w n v :
  inv u pend w → g_cost w !! n = Some (Fin v) →
  ∃ hv, h hypot (nodes w) n goal = inr hv ∧ key w n = (Fin (v + hv), n).
Proof.
  intros I Hn.
  destruct (inv_vals _ _ _ _ _ _ I n _ Hn) as (v' & hv & [= <-] & _ & Hh & Hf).
  exists hv. split; [exact Hh|]. unfold key, dd_get. rewrite Hf. reflexivity.
Qed.


(** The recomputed cost of a chain is at most the recorded g-cost. *)
Lemma chain_cost_le u pend w n l :
  inv u pend w → up (prev w) n l →
  ∀ gn, g_cost w !! n = Some (Fin gn) →
  ∃ d, path_cost (edges w) (rev l ++ [n]) = Some d ∧ d ≤ gn.
Proof.
  intros I H. induction H as [n Hn|n p l Hn Hp IH]; intros gn Hgn.
  - exists 0. split; [reflexivity|].
    destruct (inv_fin _ _ _ _ _ I Hgn) as (v & [= <-] & Hv). exact Hv.
  - destruct (inv_prev _ _ _ _ _ _ I n p Hn) as (c & gp & gn' & Hin & Hgp & Hgn' & Hle).
    assert (gn' = gn) by congruence. subst gn'.
    destruct (IH gp Hgp) as (d & Hd & Hdle).
    destruct (edge_min_exists (edges w) p n c Hin) as (m & Hm & Hmc).
    exists (d + m). split; [|lia].
    cbn [rev]. apply path_cost_snoc; assumption.
Qed.

(** A chain through closed nodes only costs exactly the recorded g-cost. *)
Lemma chain_cost_exact w n l :
  inv start [] w → up (prev w) n l →
  (∀ a, a ∈ l → a ∈ closed_set w) →
  ∀ gn, g_cost w !! n = Some (Fin gn) →
  path_cost (edges w) (rev l ++ [n]) = Some gn.
Proof.
  intros I H. induction H as [n Hn|n p l Hn Hp IH]; intros Hcl gn Hgn.
  - cbn. f_equal. destruct (decide (n = start)) as [->|Hne].
    + destruct (inv_start _ _ _ _ _ _ I) as [Hs _]. congruence.
    + destruct (inv_has_prev _ _ _ _ _ _ I n (ltac:(eauto)) Hne) as [p Hp].
      congruence.
  - destruct (inv_prev _ _ _ _ _ _ I n p Hn) as (c & gp & gn' & Hin & Hgp & Hgn' & Hle).
    assert (gn' = gn) by congruence. subst gn'.
    assert (p ∈ closed_set w) as Hpc by (apply Hcl; left).
    destruct (edge_min_exists (edges w) p n c Hin) as (m & Hm & Hmc).
    pose proof (edge_min_Some _ _ _ _ Hm) as [Hmin _].
    destruct (inv_relaxed _ _ _ _ _ _ I p n m gp Hpc Hmin Hgp)
      as [[_ Hnil]|(gv & Hgv & Hle')]; [inversion Hnil|].
    assert (gv = gn) by congruence. subst gv.
    assert (gn = gp + m) as -> by lia.
    cbn [rev]. apply path_cost_snoc; [|exact Hm].
    apply IH; [|exact Hgp]. intros a Ha. apply Hcl. right. exact Ha.
Qed.


(** ** Open ancestors: the order in which improved nodes are expanded *)

Lemma up_notin (pv : gmap Z Z) n l : up pv n l → n ∉ l.
Proof.
  intros H Hin. apply list_elem_of_split in Hin as (l1 & l2 & ->).
  pose proof (up_suffix _ _ _ _ _ H) as H2.
  pose proof (up_func _ _ _ _ H H2) as E.
  apply (f_equal length) in E. rewrite length_app in E. cbn in E. lia.
Qed.

Lemma key_improve_ne u v t hv w n :
  n ≠ v → key (improve u v t hv w) n = key w n.
Proof.
  intros Hne. unfold key, dd_get, improve; cbn.
  rewrite lookup_insert_ne by done. reflexivity.
Qed.

Lemma key_improve_eq u v t hv w :
  key (improve u v t hv w) v = (Fin (t + hv), v).
Proof. unfold key, dd_get, improve; cbn. rewrite lookup_insert_eq. reflexivity. Qed.

Lemma first_above_improve u v t hv w k (l : list Z) :
  v ∉ l → first_above (improve u v t hv w) k l = first_above w k l.
Proof.
  intros Hv. apply first_above_ext. intros a Ha.
  apply key_improve_ne. intros ->. contradiction.
Qed.

(** The chains after an improving relaxation. *)
Lemma chain_improve u gu v c pend w hv lu n l' :
  mid u gu ((v, c) :: pend) w →
  cltb (Fin (gu + c)) (dd_get (g_cost w) v) = true →
  up (prev w) u lu →
  up (prev (improve u v (gu + c) hv w)) n l' →
  (v ∉ u :: lu) ∧
  ((n = v ∧ l' = u :: lu) ∨
   (n ≠ v ∧ ∀ l, up (prev w) n l → l' = splice v (u :: lu) l)).
Proof.
  intros (I & Hu & Hgu & Hpend) Hlt Hlu Hup'.
  assert ((v, c) ∈ edges_get w u) as Hin by (apply Hpend; left).
  pose proof (edge_nonneg w u v c (inv_nonneg _ _ _ _ _ _ I) Hin) as Hc.
  pose proof (improve_notin _ _ _ _ _ _ _ I Hgu Hc Hlt Hlu) as Hnotin.
  split; [exact Hnotin|]. cbn in Hup'.
  destruct (decide (n = v)) as [->|Hne].
  - left. split; [reflexivity|].
    eapply up_func; [exact Hup'|]. apply up_improve_self; assumption.
  - right. split; [exact Hne|]. intros l Hl.
    eapply up_func; [exact Hup'|]. apply up_improve; assumption.
Qed.

(** The improved node gets a key below every open node it is an ancestor
    of. *)
Lemma improved_key_below u gu v c pend w hv n l :
  mid u gu ((v, c) :: pend) w → mid2 u w →
  cltb (Fin (gu + c)) (dd_get (g_cost w) v) = true →
  h hypot (nodes w) v goal = inr hv →
  n ∈ open_set w → up (prev w) n l → v ∈ l →
  klt (Fin (gu + c + hv), v) (key w n).
Proof.
  intros M (Hth & Hanc & Hpc) Hlt Hh Hn Hl Hv.
  pose proof M as (I & Hu & Hgu & Hpend).
  assert ((v, c) ∈ edges_get w u) as Hin by (apply Hpend; left).
  pose proof (edge_nonneg w u v c (inv_nonneg _ _ _ _ _ _ I) Hin) as Hc.
  destruct (inv_chain _ _ _ _ _ _ I u (ltac:(eauto))) as [lu Hlu].
  pose proof (improve_notin _ _ _ _ _ _ _ I Hgu Hc Hlt Hlu) as Hnotin.
  destruct (inv_seen _ _ _ v I (inv_up_seen _ _ _ _ _ _ I Hl Hv)) as (gv & Hgv & _).
  destruct (inv_key _ _ _ _ _ I Hgv) as (hv' & Hh' & Kv).
  assert (hv' = hv) by congruence. subst hv'.
  assert (gu + c < gv) as Hless.
  { unfold dd_get in Hlt. rewrite Hgv in Hlt. cbn in Hlt.
    apply Z.ltb_lt in Hlt. exact Hlt. }
  assert (klt (Fin (gu + c + hv), v) (key w v)) as Hdown.
  { rewrite Kv. apply klt_spec. lia. }
  destruct (klt_dec (key w v) (key w n)) as [Hvn|Hvn].
  { eapply klt_trans; eassumption. }
  exfalso.
  assert (v ≠ n) as Hneq.
  { intros ->. exact (up_notin _ _ _ Hl Hv). }
  assert (klt (key w n) (key w v)) as Hnv.
  { destruct (klt_total (key w v) (key w n)) as [E|[E|E]]; [|contradiction|exact E].
    unfold key in E. congruence. }
  destruct (first_above w (key w n) l) as [X|] eqn:EX.
  - pose proof (Hanc n l lu (key w n) Hn Hl Hlu (klt_irrefl _)) as Ha.
    rewrite EX in Ha. symmetry in Ha.
    apply first_above_Some in Ha as (m1 & m2 & Em & _ & _).
    assert (X ∈ u :: lu) as HXu by (rewrite Em; apply elem_of_app; right; left).
    apply first_above_Some in EX as (l1 & l2 & -> & HkX & Hnone).
    apply elem_of_app in Hv as [Hv|Hv].
    + rewrite first_above_None in Hnone. exact (Hnone v Hv Hnv).
    + apply elem_of_cons in Hv as [->|Hv]; [contradiction|].
      apply Hnotin. right.
      eapply (up_meet (prev w) n (l1 ++ X :: l2) u lu X v); eauto.
      apply elem_of_app. right. left.
  - rewrite first_above_None in EX. exact (EX v Hv Hnv).
Qed.

Lemma mid2_improve u gu v c pend w hv :
  mid u gu ((v, c) :: pend) w → mid2 u w →
  cltb (Fin (gu + c)) (dd_get (g_cost w) v) = true →
  h hypot (nodes w) v goal = inr hv →
  mid2 u (improve u v (gu + c) hv w).
Proof.
  intros M M2 Hlt Hh.
  pose proof M as (I & Hu & Hgu & Hpend).
  pose proof M2 as (Hth & Hanc & Hpc_u & Hpc).
  destruct (inv_chain _ _ _ _ _ _ I u (ltac:(eauto))) as [lu Hlu].
  assert (∀ n, n ∈ open_set w → ∃ l, up (prev w) n l) as Hchain.
  { intros n Hn. apply (inv_chain _ _ _ _ _ _ I).
    apply (inv_dom _ _ _ _ _ _ I). set_solver. }
  assert (∀ a, a ∈ u :: lu → a ∈ closed_set w ∧ a ∉ open_set w) as Hclosed.
  { intros a Ha. assert (a ∈ closed_set w) as Hc.
    { apply elem_of_cons in Ha as [->|Ha]; [exact Hpc_u|eapply Hpc; eauto]. }
    split; [exact Hc|]. pose proof (inv_disj _ _ _ _ _ _ I). set_solver. }
  split; [|split].
  - (* theta *)
    intros n l' a Hn Hup' Ha Hao.
    destruct (chain_improve _ _ _ _ _ _ hv _ _ _ M Hlt Hlu Hup')
      as [Hnotin [[-> ->]|[Hne Hl']]].
    + exfalso. destruct (Hclosed a Ha) as [_ Hno].
      cbn in Hao. apply elem_of_union in Hao as [Hao|Hao]; [|contradiction].
      apply elem_of_singleton in Hao as ->. contradiction.
    + assert (n ∈ open_set w) as Hn0 by (cbn in Hn; set_solver).
      destruct (Hchain n Hn0) as [l Hl]. rewrite (Hl' l Hl) in Ha.
      rewrite (key_improve_ne _ _ _ _ _ n Hne).
      destruct (decide (v ∈ l)) as [Hv|Hv].
      * pose proof (improved_key_below _ _ _ _ _ _ _ _ _ M M2 Hlt Hh Hn0 Hl Hv) as Hkey.
        apply list_elem_of_split_l in Hv as (l1 & l2 & -> & Hv1).
        rewrite splice_in in Ha by exact Hv1.
        apply elem_of_app in Ha as [Ha|Ha].
        -- assert (a ≠ v) as Hav by (intros ->; contradiction).
           rewrite (key_improve_ne _ _ _ _ _ a Hav).
           apply (Hth n (l1 ++ v :: l2) a Hn0 Hl).
           ++ apply elem_of_app. left. exact Ha.
           ++ cbn in Hao. set_solver.
        -- apply elem_of_cons in Ha as [->|Ha].
           ++ rewrite key_improve_eq. exact Hkey.
           ++ exfalso. destruct (Hclosed a Ha) as [_ Hno].
              cbn in Hao. apply elem_of_union in Hao as [Hao|Hao]; [|contradiction].
              apply elem_of_singleton in Hao as ->. contradiction.
      * rewrite splice_notin in Ha by exact Hv.
        assert (a ≠ v) as Hav by (intros ->; contradiction).
        rewrite (key_improve_ne _ _ _ _ _ a Hav).
        apply (Hth n l a Hn0 Hl Ha). cbn in Hao. set_solver.
  - (* anchored *)
    intros n l' lu' k Hn Hup' Hupu' Hk.
    destruct (chain_improve _ _ _ _ _ _ hv _ _ _ M Hlt Hlu Hup')
      as [Hnotin Hcases].
    assert (lu' = lu) as ->.
    { eapply up_func; [exact Hupu'|]. cbn. apply up_insert_notin; assumption. }
    destruct Hcases as [[-> ->]|[Hne Hl']]; [reflexivity|].
    assert (n ∈ open_set w) as Hn0 by (cbn in Hn; set_solver).
    destruct (Hchain n Hn0) as [l Hl]. rewrite (Hl' l Hl).
    rewrite (key_improve_ne _ _ _ _ _ n Hne) in Hk.
    rewrite (first_above_improve _ _ _ _ _ _ (u :: lu)) by exact Hnotin.
    pose proof (Hanc n l lu k Hn0 Hl Hlu Hk) as Hold.
    destruct (decide (v ∈ l)) as [Hv|Hv].
    + pose proof (improved_key_below _ _ _ _ _ _ _ _ _ M M2 Hlt Hh Hn0 Hl Hv) as Hkey.
      apply list_elem_of_split_l in Hv as (l1 & l2 & -> & Hv1).
      rewrite splice_in by exact Hv1.
      rewrite first_above_app.
      rewrite (first_above_improve _ _ _ _ _ _ l1) by exact Hv1.
      rewrite first_above_app in Hold.
      destruct (first_above w k l1) as [X|] eqn:EX.
      * exfalso. symmetry in Hold.
        apply first_above_Some in Hold as (m1 & m2 & Em & _ & _).
        assert (X ∈ u :: lu) as HXu by (rewrite Em; apply elem_of_app; right; left).
        apply first_above_Some in EX as (l1a & l1b & -> & _ & _).
        apply Hnotin. right.
        eapply (up_meet (prev w) n _ u lu X v); eauto.
        -- rewrite <- app_assoc. apply elem_of_app. right. left.
        -- exists l1a, (l1b ++ v :: l2). split.
           ++ rewrite <- app_assoc. reflexivity.
           ++ apply elem_of_app. right. left.
      * change (first_above (improve u v (gu + c) hv w) k (v :: u :: lu))
          with (if key_ltb k (key (improve u v (gu + c) hv w) v) then Some v
                else first_above (improve u v (gu + c) hv w) k (u :: lu)).
        rewrite key_improve_eq.
        destruct (key_ltb k (Fin (gu + c + hv), v)) eqn:Ek.
        -- exfalso. apply Hk. eapply klt_trans; [exact Ek|exact Hkey].
        -- apply first_above_improve. exact Hnotin.
    + rewrite splice_notin by exact Hv.
      rewrite (first_above_improve _ _ _ _ _ _ l) by exact Hv. exact Hold.
  - (* pivot_closed *)
    destruct (mid_improve _ _ _ _ _ _ _ M Hlt Hh) as [_ Hvu].
    assert (v ∉ u :: lu) as Hnotin.
    { assert ((v, c) ∈ edges_get w u) as Hin by (apply Hpend; left).
      pose proof (edge_nonneg w u v c (inv_nonneg _ _ _ _ _ _ I) Hin) as Hc.
      exact (improve_notin _ _ _ _ _ _ _ I Hgu Hc Hlt Hlu). }
    split; [cbn; set_solver|].
    intros lu' a Hupu' Ha.
    assert (lu' = lu) as ->.
    { eapply up_func; [exact Hupu'|]. cbn. apply up_insert_notin; assumption. }
    cbn. apply elem_of_difference. split; [eapply Hpc; eauto|].
    intros Hav. apply elem_of_singleton in Hav as ->.
    apply Hnotin. right. exact Ha.
Qed.


Lemma key_move u w n : key (move u w) n = key w n.
Proof. reflexivity. Qed.

Lemma first_above_move u w k (l : list Z) :
  first_above (move u w) k l = first_above w k l.
Proof. apply first_above_ext. intros a _. reflexivity. Qed.

(** The ancestors of the selected node are closed. *)
Lemma selected_chain_closed u0 w u l a :
  inv u0 [] w → theta w → select w = Some u →
  up (prev w) u l → a ∈ l → a ∈ closed_set w.
Proof.
  intros I Hth Hsel Hl Ha. apply select_Some in Hsel as [Hu Hmin].
  pose proof (inv_up_seen _ _ _ _ _ _ I Hl Ha) as Hs.
  apply (inv_dom _ _ _ _ _ _ I) in Hs. apply elem_of_union in Hs as [Ho|Hc].
  - exfalso. apply (Hmin a Ho). exact (Hth u l a Hu Hl Ha Ho).
  - exact Hc.
Qed.

Lemma mid2_start u0 u w :
  inv u0 [] w → head2 w → select w = Some u → mid2 u (move u w).
Proof.
  intros I [Hth Hanc] Hsel. pose proof Hsel as Hsel'.
  apply select_Some in Hsel' as [Hu Hmin].
  split; [|split].
  - intros n l a Hn Hl Ha Hao. rewrite !key_move.
    apply (Hth n l a); [cbn in Hn; set_solver|exact Hl|exact Ha|cbn in Hao; set_solver].
  - intros n l lu k Hn Hl Hlu Hk. rewrite !first_above_move. rewrite key_move in Hk.
    assert (n ∈ open_set w) as Hn0 by (cbn in Hn; set_solver).
    assert (¬ klt k (key w u)) as Hku.
    { eapply kle_trans; [apply (Hmin n Hn0)|exact Hk]. }
    cbn [first_above].
    destruct (key_ltb k (key w u)) eqn:E; [exfalso; exact (Hku E)|].
    exact (Hanc n u l lu k Hn0 Hu Hl Hlu Hk Hku).
  - split; [cbn; set_solver|].
    intros lu a Hlu Ha. cbn. apply elem_of_union. right.
    eapply selected_chain_closed; eauto.
Qed.

Lemma head2_end u gu w : mid u gu [] w → mid2 u w → head2 w.
Proof.
  intros (I & Hu & Hgu & _) (Hth & Hanc & _). split; [exact Hth|].
  intros n m ln lm k Hn Hm Hln Hlm Hkn Hkm.
  destruct (inv_chain _ _ _ _ _ _ I u (ltac:(eauto))) as [lu Hlu].
  rewrite (Hanc n ln lu k Hn Hln Hlu Hkn).
  rewrite (Hanc m lm lu k Hm Hlm Hlu Hkm). reflexivity.
Qed.

Lemma head2_init nd ed g f :
  head2 (mkWorld nd ed {[start]} ∅ g f ∅).
Proof.
  split.
  - intros n l a Hn Hl Ha. inversion Hl as [? Hp|? ? ? Hp]; subst.
    + inversion Ha.
    + cbn in Hp. rewrite lookup_empty in Hp. discriminate.
  - intros n m ln lm k Hn Hm Hln Hlm _ _.
    inversion Hln as [? Hp|? ? ? Hp]; subst;
      [|cbn in Hp; rewrite lookup_empty in Hp; discriminate].
    inversion Hlm as [? Hp'|? ? ? Hp']; subst;
      [|cbn in Hp'; rewrite lookup_empty in Hp'; discriminate].
    reflexivity.
Qed.

Lemma head2_expand u0 u w w' :
  inv u0 [] w → head2 w → select w = Some u → u ≠ goal →
  expand hypot goal u w = Ok w' → head2 w'.
Proof.
  intros I H2 Hsel Hne Hex.
  pose proof (mid2_start _ _ _ I H2 Hsel) as M2.
  apply select_Some in Hsel as [Hu _].
  destruct (mid_start u0 u w I Hu Hne) as [gu M].
  unfold expand in Hex. fold (move u w) in Hex.
  replace (edges_get (move u w) u) with (edges_get w u) in Hex by reflexivity.
  destruct (relax_all_ind u gu (λ _ w, mid2 u w)) with
    (pend := edges_get w u) (w := move u w) (w' := w') as [M' M2'].
  - intros v c pend w1 _ H _. exact H.
  - intros v c pend w1 hv M1 H Hlt Hh. eapply mid2_improve; eassumption.
  - exact M.
  - exact M2.
  - exact Hex.
  - eapply head2_end; eassumption.
Qed.

End Invariant.

(** ** The rounded-up Euclidean norm *)



(** ** The whole call *)

Lemma astar_sound hypot fuel nd ed start goal p c :
  nonneg_costs ed → astar hypot fuel nd ed start goal = Return p c →
  ∃ w, nodes w = nd ∧ edges w = ed ∧ inv hypot goal start start [] w ∧ head2 w ∧
    ((select w = None ∧ p = [] ∧ c = Inf) ∨
     (select w = Some goal ∧ c = dd_get (g_cost w) goal ∧
      ∃ l, up (prev w) goal l ∧ p = rev l ++ [goal])).
Proof.
  intros Hnn. unfold astar, astar_run.
  destruct (nd !! start) as [na|] eqn:Hs; cycle 1.
  { destruct (init_unknown hypot nd ed start goal (or_introl Hs))
      as (k & w' & -> & _). discriminate. }
  destruct (nd !! goal) as [ng|] eqn:Hg; cycle 1.
  { destruct (init_unknown hypot nd ed start goal (or_intror Hg))
      as (k & w' & -> & _). discriminate. }
  rewrite (init_known hypot nd ed start goal na ng Hs Hg).
  set (w0 := mkWorld nd ed _ _ _ _ _).
  destruct (search hypot goal fuel w0) as [o w'] eqn:Hsearch. cbn [fst].
  intros ->.
  destruct (search_sound hypot goal start
              (λ w, head2 w ∧ nodes w = nd ∧ edges w = ed)) with
    (fuel := fuel) (w := w0) (p := p) (c := c) (w' := w')
    as (I' & (H2 & En & Ee) & Hfin).
  - intros w u w1 I (H2 & En & Ee) Hsel Hne Hex. split.
    + eapply head2_expand; eassumption.
    + pose proof (expand_frame hypot goal u w) as [E1 E2].
      rewrite Hex in E1, E2. cbn in E1, E2. split; congruence.
  - apply inv_init; assumption.
  - split; [apply head2_init|]. split; reflexivity.
  - exact Hsearch.
  - exists w'. auto.
Qed.

Lemma astar_total hypot nd ed start goal :
  nonneg_costs ed → targets_known nd ed →
  is_Some (nd !! start) → is_Some (nd !! goal) →
  ∃ n p c, ∀ fuel, (n ≤ fuel)%nat →
    astar hypot fuel nd ed start goal = Return p c.
Proof.
  intros Hnn Hk [na Hs] [ng Hg].
  pose proof (inv_init hypot goal start nd ed na ng Hnn Hs Hg) as I.
  destruct (search_total hypot goal start _ I Hk) as (n & p & c & w' & Hn).
  exists n, p, c. intros fuel Hf. unfold astar, astar_run.
  rewrite (init_known hypot nd ed start goal na ng Hs Hg).
  rewrite (Hn fuel Hf). reflexivity.
Qed.

Lemma astar_mono hypot fuel fuel' nd ed start goal p c :
  astar hypot fuel nd ed start goal = Return p c → (fuel ≤ fuel')%nat →
  astar hypot fuel' nd ed start goal = Return p c.
Proof.
  unfold astar, astar_run.
  destruct (init hypot goal start (enter nd ed)) as [w0|e w0]; [|auto].
  destruct (search hypot goal fuel w0) as [o w'] eqn:Hs. cbn [fst].
  intros -> Hf. rewrite (search_mono hypot goal fuel fuel' w0 _ w' Hs); [reflexivity|discriminate|exact Hf].
Qed.

(** A returned path runs from the start to the goal along edges. *)
Lemma astar_path hypot fuel nd ed start goal p c :
  nonneg_costs ed → astar hypot fuel nd ed start goal = Return p c → p ≠ [] →
  head p = Some start ∧ last p = Some goal ∧ linked ed p ∧
  ∃ v, c = Fin v ∧ path_cost ed p = Some v.
Proof.
  intros Hnn Hret Hp.
  destruct (astar_sound _ _ _ _ _ _ _ _ Hnn Hret)
    as (w & En & Ee & I & [Hth _] & [(_ & -> & _)|(Hsel & -> & l & Hl & ->)]);
    [contradiction|].
  assert (is_Some (g_cost w !! goal)) as Hs.
  { apply select_Some in Hsel as [Hu _].
    apply (inv_dom _ _ _ _ _ _ I). set_solver. }
  split; [|split; [|split]].
  - rewrite head_rev_snoc. eapply inv_up_root; eassumption.
  - apply last_snoc.
  - rewrite <- Ee. eapply inv_up_linked; eassumption.
  - destruct (inv_seen _ _ _ _ _ _ _ I Hs) as (gg & Hgg & _).
    exists gg. split; [unfold dd_get; rewrite Hgg; reflexivity|].
    rewrite <- Ee. eapply chain_cost_exact; eauto.
    intros a Ha. eapply selected_chain_closed; eauto.
Qed.


Lemma astar_unreachable hypot nd ed start goal :
  nonneg_costs ed → targets_known nd ed →
  is_Some (nd !! start) → is_Some (nd !! goal) →
  (∀ d, ¬ walk ed start goal d) →
  ∃ n, ∀ fuel, (n ≤ fuel)%nat →
    astar hypot fuel nd ed start goal = Return [] Inf.
Proof.
  intros Hnn Hk Hs Hg Hno.
  destruct (astar_total hypot nd ed start goal Hnn Hk Hs Hg) as (n & p & c & Hn).
  pose proof (Hn n (le_n n)) as Hret.
  destruct (astar_sound _ _ _ _ _ _ _ _ Hnn Hret)
    as (w & En & Ee & I & _ & [(_ & -> & ->)|(Hsel & _)]).
  - exists n. exact Hn.
  - exfalso. apply select_Some in Hsel as [Hu _].
    assert (is_Some (g_cost w !! goal)) as Hseen.
    { apply (inv_dom _ _ _ _ _ _ I). set_solver. }
    destruct (inv_reachable _ _ _ _ _ _ _ I Hseen) as [d Hd].
    rewrite Ee in Hd. exact (Hno d Hd).
Qed.


Lemma klt_explicit a i b j :
  klt (a, i) (b, j) → cltb a b = true ∨ (a = b ∧ i < j).
Proof.
  rewrite klt_spec. destruct a as [v|], b as [v'|]; cbn; try tauto.
  intros [H|[-> H]]; [left; apply Z.ltb_lt; exact H|right; auto].
Qed.

Lemma select_least (w : World) u :
  select w = Some u →
  u ∈ open_set w ∧
  ∀ n, n ∈ open_set w → n ≠ u →
    cltb (dd_get (f_cost w) u) (dd_get (f_cost w) n) = true ∨
    (dd_get (f_cost w) u = dd_get (f_cost w) n ∧ u < n).
Proof.
  intros Hsel. apply select_Some in Hsel as [Hu Hmin].
  split; [exact Hu|]. intros n Hn Hne. apply klt_explicit.
  destruct (klt_total (key w u) (key w n)) as [E|[E|E]].
  - unfold key in E. congruence.
  - exact E.
  - exfalso. exact (Hmin n Hn E).
Qed.

Lemma select_order_free (w : World) (l : list Z) :
  l ≡ₚ elements (open_set w) →
  min_by (λ n, (dd_get (f_cost w) n, n)) l = select w.
Proof.
  intros Hperm. destruct (select w) as [u|] eqn:Hsel.
  - pose proof Hsel as Hsel'. apply select_Some in Hsel' as [Hu Hmin].
    apply min_by_unique.
    + intros a b E. congruence.
    + rewrite Hperm. apply elem_of_elements. exact Hu.
    + intros n Hn. rewrite Hperm in Hn. apply elem_of_elements in Hn.
      exact (Hmin n Hn).
  - apply select_None in Hsel. rewrite Hsel, elements_empty in Hperm.
    apply Permutation_nil_r in Hperm. subst l. reflexivity.
Qed.

Lemma astar_fuel_free hypot fuel1 fuel2 nd ed start goal p1 c1 p2 c2 :
  astar hypot fuel1 nd ed start goal = Return p1 c1 →
  astar hypot fuel2 nd ed start goal = Return p2 c2 →
  p1 = p2 ∧ c1 = c2.
Proof.
  intros H1 H2.
  apply (astar_mono _ _ (Nat.max fuel1 fuel2)) in H1; [|lia].
  apply (astar_mono _ _ (Nat.max fuel1 fuel2)) in H2; [|lia].
  rewrite H1 in H2. injection H2 as -> ->. auto.
Qed.



Lemma tie_walks d : walk tie_edges 1 4 d → 10 ≤ d.
Proof.
  intros H. inversion H as [|a b c k d1 Hin Hw]; subst.
  assert (k = 5 ∧ (b = 2 ∨ b = 3)) as [-> Hb].
  { vm_compute in Hin. set_solver. }
  inversion Hw as [|a b' c k' d2 Hin' Hw']; subst.
  - destruct Hb; discriminate.
  - assert (k' = 5) as ->.
    { destruct Hb as [->| ->]; vm_compute in Hin'; set_solver. }
    assert (0 ≤ d2); [|lia].
    eapply (walk_nonneg tie_edges); [|exact Hw']. compute_done.
Qed.

Lemma island_walks a b d :
  walk island_edges a b d → a = 1 ∨ a = 2 → b = 1 ∨ b = 2.
Proof.
  induction 1 as [a|a b c k d Hin Hw IH]; intros Ha; [exact Ha|].
  apply IH. destruct Ha as [->| ->]; vm_compute in Hin; set_solver.
Qed.

(** * The claims *)





(** C3 (trivial query).  For a node [x0] of the graph, [astar] from [x0] to
    [x0] returns the path [[x0]] with total 0, and it returns from the state
    set up before the loop: Closed is empty, no predecessor and no g-cost
    other than that of [x0] is recorded, so no edge was relaxed. *)
Theorem C3_trivial_query hypot nd ed x0 fuel :
  is_Some (nd !! x0) → (2 ≤ fuel)%nat →
  astar hypot fuel nd ed x0 x0 = Return [x0] (Fin 0) ∧
  (astar_run hypot x0 fuel (enter nd ed) x0).2 = search_start hypot nd ed x0.
Proof.
  intros [na Hx] Hf. unfold astar.
  destruct fuel as [|[|fuel]]; [lia|lia|].
  assert (astar_run hypot x0 (S (S fuel)) (enter nd ed) x0
          = (Return [x0] (Fin 0), search_start hypot nd ed x0)) as E.
  { unfold astar_run. rewrite (init_known hypot nd ed x0 x0 na na Hx Hx).
    rewrite !Z.sub_diag. unfold search_start.
    cbn [search]. rewrite (select_singleton _ x0) by reflexivity.
    rewrite bool_decide_eq_true_2 by reflexivity.
    cbn [rebuild prev]. rewrite lookup_empty.
    unfold dd_get. cbn [g_cost]. rewrite lookup_singleton_eq. reflexivity. }
  rewrite E. split; reflexivity.
Qed.

Lemma C3_witness :
  astar hypot_up 2 ex_nodes ex_edges 2 2 = Return [2] (Fin 0) ∧
  (astar_run hypot_up 2 2 (enter ex_nodes ex_edges) 2).2
  = search_start hypot_up ex_nodes ex_edges 2.
Proof.
  apply (C3_trivial_query hypot_up ex_nodes ex_edges 2 2).
  - vm_compute. eauto.
  - lia.
Defined.

(** C4 (unreachable goal).  With nonnegative edge costs, every edge leading
    to a node of the graph, and a start and a goal that are nodes, when no
    walk leads from the start to the goal, [astar] returns (with enough
    fuel) the empty path and [math.inf]; it does not raise. *)
Theorem C4_unreachable_goal hypot nd ed start goal :
  nonneg_costs ed → targets_known nd ed →
  is_Some (nd !! start) → is_Some (nd !! goal) →
  (∀ d, ¬ walk ed start goal d) →
  ∃ n, ∀ fuel, (n ≤ fuel)%nat →
    astar hypot fuel nd ed start goal = Return [] Inf.
Proof. apply astar_unreachable. Qed.

Lemma C4_witness :
  ∃ n, ∀ fuel, (n ≤ fuel)%nat →
    astar hypot_up fuel island_nodes island_edges 1 5 = Return [] Inf.
Proof.
  apply (C4_unreachable_goal hypot_up island_nodes island_edges 1 5).
  - apply (bool_decide_unpack _). vm_compute. exact I.
  - apply (bool_decide_unpack _). vm_compute. exact I.
  - vm_compute. eauto.
  - vm_compute. eauto.
  - intros d Hw. destruct (island_walks 1 5 d Hw (or_introl eq_refl)); lia.
Defined.

(** C5 (unknown identifier).  When the start or the goal is not a node of
    the graph, [astar] raises [KeyError] on such an identifier, whatever the
    fuel: the error comes from line 86, before the loop is entered, and no
    path is returned. *)
Theorem C5_unknown_id hypot fuel nd ed start goal :
  nd !! start = None ∨ nd !! goal = None →
  ∃ k, astar hypot fuel nd ed start goal = Raise (KeyError k) ∧
       nd !! k = None ∧ (k = start ∨ k = goal).
Proof.
  intros Hun. unfold astar, astar_run.
  destruct (init_unknown hypot nd ed start goal Hun) as (k & w' & -> & Hk & Hor).
  exists k. auto.
Qed.

Lemma C5_witness :
  ∃ k, astar hypot_up 0 island_nodes island_edges 1 9 = Raise (KeyError k) ∧
       island_nodes !! k = None ∧ (k = 1 ∨ k = 9).
Proof.
  apply (C5_unknown_id hypot_up 0 island_nodes island_edges 1 9).
  right. vm_compute. reflexivity.
Defined.

(** C6, as amended (selection rule and determinism).  The node [select]
    picks is open, and every other open node has a larger f-cost, or the
    same f-cost and a larger identifier; the choice does not depend on the
    order in which the set is enumerated; and the result of [astar] does not
    depend on the fuel.  Which of several optimal paths is returned follows
    from this order of expansion. *)
Theorem C6_selection_deterministic :
  (∀ (w : World) u, select w = Some u →
     u ∈ open_set w ∧
     ∀ n, n ∈ open_set w → n ≠ u →
       cltb (dd_get (f_cost w) u) (dd_get (f_cost w) n) = true ∨
       (dd_get (f_cost w) u = dd_get (f_cost w) n ∧ u < n)) ∧
  (∀ (w : World) (l : list Z), l ≡ₚ elements (open_set w) →
     min_by (λ n, (dd_get (f_cost w) n, n)) l = select w) ∧
  (∀ hypot fuel1 fuel2 nd ed start goal p1 c1 p2 c2,
     astar hypot fuel1 nd ed start goal = Return p1 c1 →
     astar hypot fuel2 nd ed start goal = Return p2 c2 →
     p1 = p2 ∧ c1 = c2).
Proof.
  split; [exact select_least|]. split; [exact select_order_free|].
  exact astar_fuel_free.
Qed.

Lemma C6_witness :
  2 ∈ open_set tie_w2 ∧
  ∀ n, n ∈ open_set tie_w2 → n ≠ 2 →
    cltb (dd_get (f_cost tie_w2) 2) (dd_get (f_cost tie_w2) n) = true ∨
    (dd_get (f_cost tie_w2) 2 = dd_get (f_cost tie_w2) n ∧ 2 < n).
Proof.
  apply (proj1 C6_selection_deterministic tie_w2 2).
  vm_compute. reflexivity.
Defined.

(** C6 as stated fails: on [tie_nodes], [tie_edges] the paths 1, 2, 4 and
    1, 3, 4 both have the optimal cost 10, and [astar] returns the one
    through node 3, the larger identifier. *)
Lemma C6_counterexample :
  astar hypot_up 10 tie_nodes tie_edges 1 4 = Return [1; 3; 4] (Fin 10) ∧
  path_cost tie_edges [1; 2; 4] = Some 10 ∧
  path_cost tie_edges [1; 3; 4] = Some 10 ∧
  (∀ d, walk tie_edges 1 4 d → 10 ≤ d) ∧
  lex_ltb [1; 2; 4] [1; 3; 4] = true.
Proof.
  split; [vm_compute; reflexivity|]. split; [vm_compute; reflexivity|].
  split; [vm_compute; reflexivity|]. split; [exact tie_walks|reflexivity].
Qed.






(** C9 (the graph is only read).  Whatever the call does (return, raise or
    run out of fuel), the state it ends in holds the [nodes] and [edges] it
    was called with. *)
Theorem C9_graph_unchanged hypot goal fuel (w : World) start :
  nodes (astar_run hypot goal fuel w start).2 = nodes w ∧
  edges (astar_run hypot goal fuel w start).2 = edges w.
Proof. apply astar_run_frame. Qed.

(** C10 (the path is well formed).  With nonnegative edge costs, a
    non-empty path returned by [astar] begins with the start, ends with the
    goal, and every two consecutive nodes of it are joined by an edge of the
    graph. *)
Theorem C10_path_well_formed hypot fuel nd ed start goal p c :
  nonneg_costs ed → astar hypot fuel nd ed start goal = Return p c → p ≠ [] →
  head p = Some start ∧ last p = Some goal ∧
  ∀ (i : nat) a b, p !! i = Some a → p !! S i = Some b →
    ∃ k, (b, k) ∈ default [] (ed !! a).
Proof.
  intros Hnn Hret Hp.
  destruct (astar_path _ _ _ _ _ _ _ _ Hnn Hret Hp) as (H1 & H2 & H3 & _).
  split; [exact H1|]. split; [exact H2|]. apply linked_lookup. exact H3.
Qed.

Lemma C10_witness :
  head [1; 2; 3] = Some 1 ∧ last [1; 2; 3] = Some 3 ∧
  ∀ (i : nat) a b, [1; 2; 3] !! i = Some a → [1; 2; 3] !! S i = Some b →
    ∃ k, (b, k) ∈ default [] (ex_edges !! a).
Proof.
  apply (C10_path_well_formed hypot_up 10 ex_nodes ex_edges 1 3 [1; 2; 3] (Fin 2)).
  - apply (bool_decide_unpack _). vm_compute. exact I.
  - vm_compute. reflexivity.
  - discriminate.
Defined.
